(** * The protobuf.js [Writer]: a shallow embedding of [src/writer.js]

    The development follows the source file top to bottom: the numeric
    coercions of the host language, typed arrays seen as lists of octets,
    the writer object as a record, and every method as a computation in a
    small state-and-exception monad.  The theorems at the end relate the
    embedding to the prose specification of the writer. *)

From Stdlib Require Import ZArith Lia List Bool.
From Stdlib Require Ascii.
From stdpp Require Import base tactics option list.
From Equations Require Import Equations.

Local Open Scope Z_scope.

(** ** Host-language numbers

    Values handed to the writer are modelled as integers of [Z]; the
    coercions [ToInt32], [ToUint32] and [ToUint8] of the language and the
    operators built on them are written out with their wrap-around. *)
Module JS.

Definition two32 : Z := 4294967296.
Definition two31 : Z := 2147483648.

(** [x >>> 0] *)
Definition to_uint32 (x : Z) : Z := x mod two32.

(** [x | 0] *)
Definition to_int32 (x : Z) : Z := (x + two31) mod two32 - two31.

(** storing a number into a [Uint8Array] slot *)
Definition to_uint8 (x : Z) : Z := x mod 256.

(** [a << b] *)
Definition shl (a b : Z) : Z :=
  to_int32 (Z.shiftl (to_int32 a) (Z.land (to_uint32 b) 31)).

(** [a >> b] *)
Definition sar (a b : Z) : Z :=
  Z.shiftr (to_int32 a) (Z.land (to_uint32 b) 31).

(** [a >>> b] *)
Definition shr (a b : Z) : Z :=
  Z.shiftr (to_uint32 a) (Z.land (to_uint32 b) 31).

(** [a | b], [a & b], [a ^ b] *)
Definition bor (a b : Z) : Z := Z.lor (to_int32 a) (to_int32 b).
Definition band (a b : Z) : Z := Z.land (to_int32 a) (to_int32 b).
Definition bxor (a b : Z) : Z := Z.lxor (to_int32 a) (to_int32 b).

End JS.

(** ** Typed arrays

    A [Uint8Array] or a node [Buffer] is the list of its octets.  The
    writer never keeps two views that overlap on a region it still writes:
    [expand] drops the old buffer after slicing it, [fork] cuts the buffer
    in two disjoint parts, and [reset] forgets the active buffer.  Copying
    ([slice]) and aliasing ([subarray], [Buffer#slice]) therefore give the
    same contents, and one value model serves both. *)
Abbreviation bytes := (list Z).

Inductive error : Type :=
| TypeError   (* a property of [null] was read, written or called *)
| RangeError. (* [set] with a source that does not fit *)

Inductive result (A : Type) : Type :=
| Ok (a : A)
| Err (e : error).
Arguments Ok {A} a.
Arguments Err {A} e.

(** The method stored in [_slice]. *)
Inductive slice_fn : Type := slice | subarray.

(** [f.call(buf, start, end)] for [f] either of the two methods; the end
    index is clamped to the length, a missing end index means the length. *)
Definition slice_call (f : option slice_fn) (b : option bytes)
    (start : nat) (stop : option nat) : result bytes :=
  match f, b with
  | Some _, Some b =>
      Ok (match stop with
          | Some e => drop start (take e b)
          | None => drop start b
          end)
  | _, _ => Err TypeError
  end.

(** [dst.set(src, offset)] on a typed array, the source being the octets
    of a typed array or of an array already coerced: a [null] source cannot
    be converted to an object, and a source that runs over the end is
    refused. *)
Definition typed_set (dst : bytes) (src : option bytes) (offset : nat)
    : result bytes :=
  match src with
  | None => Err TypeError
  | Some s =>
      if (length dst <? offset + length s)%nat then Err RangeError
      else Ok (list_inserts offset s dst)
  end.

(** ** The writer object *)

(** [this.constructor]: which of the two classes the instance belongs to. *)
Inductive species : Type := Writer_ | BufferWriter_.

Record Writer : Type := mkWriter {
  constructor_ : species;
  buf : option bytes;          (* ?Uint8Array *)
  pos : nat;
  len : nat;
  bufs : list bytes;           (* completed buffers, oldest first *)
  _stack : list (list bytes);  (* forked states, innermost last *)
  _slice : option slice_fn
}.

(** What the host environment and the module-level settings provide. *)
Record Env : Type := mkEnv {
  BUFFER_SIZE : nat;           (* Writer.BUFFER_SIZE *)
  has_slice : bool             (* does a typed array have [slice]? *)
}.

(** [new Writer()] and [new BufferWriter()] *)
Definition new_ (k : species) : Writer :=
  mkWriter k None 0 0 [] [] None.

(** ** Methods as computations

    A method either returns normally with the updated writer or throws;
    the model does not follow a writer past an uncaught exception. *)
Inductive outcome (A : Type) : Type :=
| Return (a : A) (w : Writer)
| Throw (e : error).
Arguments Return {A} a w.
Arguments Throw {A} e.

Definition M (A : Type) : Type := Writer -> outcome A.

Definition ret {A} (a : A) : M A := fun w => Return a w.

Definition bind {A B} (m : M A) (k : A -> M B) : M B :=
  fun w => match m w with
           | Return a w' => k a w'
           | Throw e => Throw e
           end.

Definition throw {A} (e : error) : M A := fun _ => Throw e.

Definition lift {A} (r : result A) : M A :=
  match r with Ok a => ret a | Err e => throw e end.

Definition get : M Writer := fun w => Return w w.

Declare Scope writer_scope.
Delimit Scope writer_scope with writer.
Notation "'let!' x ':=' m 'in' k" := (bind m (fun x => k))
  (at level 10, x name, m at level 100, k at level 200) : writer_scope.
Notation "m ;;; k" := (bind m (fun _ => k))
  (at level 100, k at level 200, right associativity) : writer_scope.
Local Open Scope writer_scope.

Definition when_ (c : bool) (m : M unit) : M unit :=
  if c then m else ret tt.

(** Field assignments. *)
Definition set_buf (b : option bytes) : M unit := fun w =>
  Return tt (mkWriter (constructor_ w) b (pos w) (len w) (bufs w) (_stack w) (_slice w)).
Definition set_pos (p : nat) : M unit := fun w =>
  Return tt (mkWriter (constructor_ w) (buf w) p (len w) (bufs w) (_stack w) (_slice w)).
Definition set_len (n : nat) : M unit := fun w =>
  Return tt (mkWriter (constructor_ w) (buf w) (pos w) n (bufs w) (_stack w) (_slice w)).
Definition set_bufs (l : list bytes) : M unit := fun w =>
  Return tt (mkWriter (constructor_ w) (buf w) (pos w) (len w) l (_stack w) (_slice w)).
Definition set_stack (s : list (list bytes)) : M unit := fun w =>
  Return tt (mkWriter (constructor_ w) (buf w) (pos w) (len w) (bufs w) s (_slice w)).
Definition set_slice (f : option slice_fn) : M unit := fun w =>
  Return tt (mkWriter (constructor_ w) (buf w) (pos w) (len w) (bufs w) (_stack w) f).

(** [Writer.alloc] and [BufferWriter.alloc]: both hand out zeroed memory
    ([new Uint8Array(size)], [Buffer.alloc(size)]).  Where [Buffer.alloc]
    is missing the node buffer comes uncleared; the writer only reads back
    octets below [pos], which it has written. *)
Definition alloc (size : nat) : bytes := replicate size 0.
Definition alloc_buffer (size : nat) : bytes := replicate size 0.

Definition constructor_alloc (k : species) (size : nat) : bytes :=
  match k with
  | Writer_ => alloc size
  | BufferWriter_ => alloc_buffer size
  end.

(** [function expand(writer, writeLength)] *)
Definition expand (env : Env) (writeLength : nat) : M unit :=
  let! w := get in
  let pos0 := pos w in
  let buf0 := buf w in
  when_ (0 <? pos0)%nat
    (let! chunk := lift (slice_call (_slice w) buf0 0 (Some pos0)) in
     set_bufs (bufs w ++ [chunk])) ;;;
  let size := Nat.max writeLength (BUFFER_SIZE env) in
  set_len size ;;;
  set_buf (Some (constructor_alloc (constructor_ w) size)) ;;;
  set_pos 0 ;;;
  set_slice (Some (if has_slice env then slice else subarray)).

(** [this.buf[this.pos++] = value]: the index is taken and the position
    advanced before the store; a store past the end of a typed array is
    dropped, a store into [null] throws. *)
Definition store (value : Z) : M unit :=
  let! w := get in
  let i := pos w in
  set_pos (S i) ;;;
  match buf w with
  | None => throw TypeError
  | Some b => set_buf (Some (<[i := JS.to_uint8 value]> b))
  end.

(** [if (this.pos + n > this.len) expand(this, n)] *)
Definition reserve (env : Env) (n : nat) : M unit :=
  let! w := get in
  when_ (len w <? pos w + n)%nat (expand env n).

(** [WriterPrototype.tag] *)
Definition write_tag (env : Env) (id wireType : Z) : M unit :=
  reserve env 1 ;;;
  store (JS.bor (JS.shl id 3) (JS.band wireType 7)).

(** Each turn of the loop of [write_uint32] shortens the value: the
    measure that makes the loop a total function. *)
Ltac shorter_by_shift value :=
  unfold JS.shr, JS.to_uint32, JS.two32;
  change (Z.land (7 mod 4294967296) 31) with 7;
  assert (0 <= value mod 4294967296 <= value) by
    (split; [apply Z.mod_pos_bound; lia | apply Z.mod_le; lia]);
  assert (Z.shiftr (value mod 4294967296) 7 <= Z.shiftr value 7) by
    (rewrite !Z.shiftr_div_pow2 by lia; apply Z.div_le_mono; lia);
  assert (Z.log2 (Z.shiftr (value mod 4294967296) 7) <= Z.log2 (Z.shiftr value 7))
    by (apply Z.log2_le_mono; assumption);
  assert (Z.log2 (Z.shiftr value 7) = Z.log2 value - 7) by
    (rewrite Z.log2_shiftr by lia;
     assert (7 <= Z.log2 value) by (apply Z.log2_le_pow2; lia); lia);
  assert (0 <= Z.log2 (Z.shiftr (value mod 4294967296) 7)) by apply Z.log2_nonneg;
  lia.

(** The loop of [write_uint32]:
    [while (value > 127) { buf[pos++] = value | 128; value >>>= 7; }
     buf[pos++] = value;] *)
Equations varint_loop (value : Z) : M unit by wf (Z.to_nat (Z.log2 value)) lt :=
varint_loop value with Z_gt_dec value 127 := {
  | left _ => store (JS.bor value 128) ;;; varint_loop (JS.shr value 7)
  | right _ => store value }.
Next Obligation. shorter_by_shift value. Qed.

(** [WriterPrototype.uint32] *)
Definition write_uint32 (env : Env) (value : Z) : M unit :=
  let value := JS.shr value 0 in
  let len_ : nat :=
    if value <? 128 then 1%nat
    else if value <? 16384 then 2%nat
    else if value <? 2097152 then 3%nat
    else if value <? 268435456 then 4%nat
    else 5%nat in
  reserve env len_ ;;;
  varint_loop value.

(** [WriterPrototype.int32 = WriterPrototype.uint32] *)
Definition write_int32 := write_uint32.

(** The zigzag map, [value << 1 ^ value >> 31]. *)
Definition zigzag (value : Z) : Z :=
  JS.bxor (JS.shl value 1) (JS.sar value 31).

(** [WriterPrototype.sint32] *)
Definition write_sint32 (env : Env) (value : Z) : M unit :=
  write_uint32 env (zigzag value).

(** [WriterPrototype.bool] *)
Definition write_bool (env : Env) (value : bool) : M unit :=
  reserve env 1 ;;;
  store (if value then 1 else 0).

(** [WriterPrototype.fixed32] *)
Definition write_fixed32 (env : Env) (value : Z) : M unit :=
  reserve env 4 ;;;
  let value := JS.shr value 0 in
  store value ;;;
  store (JS.shr value 8) ;;;
  store (JS.shr value 16) ;;;
  store (JS.shr value 24).

(** [WriterPrototype.sfixed32] *)
Definition write_sfixed32 (env : Env) (value : Z) : M unit :=
  write_fixed32 env (zigzag value).

(** [this.buf.set(value, this.pos); this.pos += len;] where [value] is an
    array of numbers, coerced to octets as they are stored. *)
Definition set_and_advance (value : list Z) : M unit :=
  (let! w := get in
   match buf w with
   | None => throw TypeError
   | Some b =>
       let! b' := lift (typed_set b (Some (map JS.to_uint8 value)) (pos w)) in
       set_buf (Some b')
   end) ;;;
  let! w := get in
  set_pos (pos w + length value).

(** [WriterPrototype.bytes] *)
Definition write_bytes (env : Env) (value : list Z) : M unit :=
  let len_ := length value in
  write_uint32 env (Z.of_nat len_) ;;;
  when_ (0 <? len_)%nat
    (reserve env len_ ;;;
     set_and_advance value).

(** [Array#pop] on the stack of forked states. *)
Definition pop {A} (l : list A) : option (list A * A) :=
  match last l with
  | Some x => Some (removelast l, x)
  | None => None
  end.

(** [WriterPrototype.fork] *)
Definition fork : M unit :=
  let! w := get in
  match buf w with
  | Some remain =>
      when_ (0 <? pos w)%nat
        (let! remain' :=
           (if (pos w <? len w)%nat then
              let! chunk := lift (slice_call (_slice w) (Some remain) 0 (Some (pos w))) in
              set_bufs (bufs w ++ [chunk]) ;;;
              let! r := lift (slice_call (_slice w) (Some remain) (pos w) None) in
              set_len (length r) ;;;
              ret (Some r)
            else
              set_bufs (bufs w ++ [remain]) ;;;
              set_len 0 ;;;
              ret None) in
         let! w' := get in
         set_stack (_stack w' ++ [bufs w']) ;;;
         set_bufs [] ;;;
         set_buf remain' ;;;
         set_pos 0)
  | None => ret tt
  end.

(** [WriterPrototype.reset] *)
Definition reset (clearForkedStates : bool) : M unit :=
  let! w := get in
  match pop (_stack w) with
  | Some (rest, top) =>
      if clearForkedStates then set_bufs []
      else set_stack rest ;;; set_bufs top
  | None => set_bufs []
  end ;;;
  set_buf None ;;;
  set_len 0 ;;;
  set_pos 0.

(** The copy loop of [finish]:
    [while (i < k) { concat.set(sub = bufs[i++], pos); pos += sub.length; }] *)
Fixpoint set_each (concat : bytes) (pos_ : nat) (subs : list bytes)
    : result (bytes * nat) :=
  match subs with
  | [] => Ok (concat, pos_)
  | sub :: rest =>
      match typed_set concat (Some sub) pos_ with
      | Ok concat' => set_each concat' (pos_ + length sub) rest
      | Err e => Err e
      end
  end.

(** [WriterPrototype.finish]; the result is [None] when the method
    returns [null]. *)
Definition finish (clearForkedStates : bool) : M (option bytes) :=
  let! w := get in
  let bufs0 := bufs w in
  let buf0 := buf w in
  let pos0 := pos w in
  let len0 := len w in
  reset clearForkedStates ;;;
  let! this := get in
  let! buf1 :=
    match buf0 with
    | Some b =>
        if (pos0 <? len0)%nat then
          if (0 <? pos0)%nat then
            let! s := lift (slice_call (_slice this) (Some b) 0 (Some pos0)) in
            ret (Some s)
          else ret (Some [])
        else ret (Some b)
    | None => ret None
    end in
  if (length bufs0 =? 0)%nat then ret buf1
  else
    let len1 := fold_left (fun n sub => (n + length sub)%nat) bufs0 pos0 in
    let concat := constructor_alloc (constructor_ this) len1 in
    let! cp := lift (set_each concat 0 bufs0) in
    let! concat' := lift (typed_set (fst cp) buf1 (snd cp)) in
    ret (Some concat').

(** ** The node-buffer variant: the overrides of [BufferWriter] that the
    integer writers and the state machine go through. *)

(** [source.copy(target, targetStart)]: octets that do not fit are left
    out. *)
Definition buffer_copy (source : list Z) (target : option bytes)
    (targetStart : nat) : result bytes :=
  match target with
  | None => Err TypeError
  | Some t => Ok (list_inserts targetStart (map JS.to_uint8 source) t)
  end.

(** [value.copy(this.buf, this.pos); this.pos += len;] *)
Definition copy_and_advance (value : list Z) : M unit :=
  (let! w := get in
   let! b' := lift (buffer_copy value (buf w) (pos w)) in
   set_buf (Some b')) ;;;
  let! w := get in
  set_pos (pos w + length value).

(** [BufferWriterPrototype.bytes] *)
Definition write_bytes_buffer (env : Env) (value : list Z) : M unit :=
  let len_ := length value in
  write_uint32 env (Z.of_nat len_) ;;;
  reserve env len_ ;;;
  copy_and_advance value.

(** [buf.slice(0, pos)] called on the active buffer itself. *)
Definition buffer_slice (b : option bytes) (stop : nat) : result bytes :=
  match b with
  | None => Err TypeError
  | Some b => Ok (take stop b)
  end.

(** [BufferWriterPrototype.finish] *)
Definition finish_buffer (clearForkedStates : bool) : M (option bytes) :=
  let! w := get in
  let bufs0 := bufs w in
  let buf0 := buf w in
  let pos0 := pos w in
  reset clearForkedStates ;;;
  if (length bufs0 =? 0)%nat then
    let! r := lift (buffer_slice buf0 pos0) in
    ret (Some r)
  else
    let! bufs1 :=
      (if (0 <? pos0)%nat then
         let! s := lift (buffer_slice buf0 pos0) in
         ret (bufs0 ++ [s])
       else ret bufs0) in
    ret (Some (concat bufs1)).

(** ** Calls and their dispatch

    The calls are the methods whose code is in the source file: the tag,
    the 32-bit integer writers, [bool], [bytes] and the three methods of
    the fork stack.  The 64-bit, floating-point and string writers hand
    the value to helper modules ([long_], [float_], [string_], the node
    buffer's own writers) that are outside the file, and are left out. *)

Inductive call : Type :=
| Tag (id wireType : Z)
| Uint32 (value : Z)
| Int32 (value : Z)
| Sint32 (value : Z)
| Bool_ (value : bool)
| Fixed32 (value : Z)
| Sfixed32 (value : Z)
| Bytes (value : list Z)
| Fork
| Reset (clearForkedStates : bool)
| Finish (clearForkedStates : bool).

(** One method call on [this], resolved through the prototype chain of
    its class; [Some r] is what a [finish] hands back. *)
Definition invoke (env : Env) (c : call) : M (option (option bytes)) :=
  let! this := get in
  let quiet (m : M unit) : M (option (option bytes)) := m ;;; ret None in
  match c with
  | Tag id wt => quiet (write_tag env id wt)
  | Uint32 v => quiet (write_uint32 env v)
  | Int32 v => quiet (write_int32 env v)
  | Sint32 v => quiet (write_sint32 env v)
  | Bool_ v => quiet (write_bool env v)
  | Fixed32 v => quiet (write_fixed32 env v)
  | Sfixed32 v => quiet (write_sfixed32 env v)
  | Bytes v =>
      quiet (match constructor_ this with
             | Writer_ => write_bytes env v
             | BufferWriter_ => write_bytes_buffer env v
             end)
  | Fork => quiet fork
  | Reset c => quiet (reset c)
  | Finish c =>
      let! r := (match constructor_ this with
                 | Writer_ => finish c
                 | BufferWriter_ => finish_buffer c
                 end) in
      ret (Some r)
  end.

(** A script of calls; the results of its [finish] calls, in order. *)
Fixpoint run (env : Env) (cs : list call) : M (list (option bytes)) :=
  match cs with
  | [] => ret []
  | c :: cs' =>
      let! r := invoke env c in
      let! rs := run env cs' in
      ret (match r with Some x => x :: rs | None => rs end)
  end.

Definition is_write (c : call) : bool :=
  match c with
  | Fork | Reset _ | Finish _ => false
  | _ => true
  end.

Definition env0 : Env := mkEnv 1024 true.

(** ** What a call writes, as a pure function of its arguments *)

(** The octets of the loop of [write_uint32], first to last. *)
Equations varint (value : Z) : bytes by wf (Z.to_nat (Z.log2 value)) lt :=
varint value with Z_gt_dec value 127 := {
  | left _ => JS.to_uint8 (JS.bor value 128) :: varint (JS.shr value 7)
  | right _ => [JS.to_uint8 value] }.
Next Obligation. shorter_by_shift value. Qed.

(** The number a base-128 string of octets stands for, least significant
    group first. *)
Fixpoint le128 (bs : bytes) : Z :=
  match bs with
  | [] => 0
  | b :: rest => Z.land b 127 + 128 * le128 rest
  end.

(** Bit 7 is set on every octet but the last, and there is a last one. *)
Fixpoint continued (bs : bytes) : Prop :=
  match bs with
  | [] => False
  | [b] => Z.testbit b 7 = false
  | b :: rest => Z.testbit b 7 = true /\ continued rest
  end.

Definition fixed32_bytes (value : Z) : bytes :=
  let value := JS.shr value 0 in
  map JS.to_uint8 [value; JS.shr value 8; JS.shr value 16; JS.shr value 24].

Definition encode (c : call) : bytes :=
  match c with
  | Tag id wt => [JS.to_uint8 (JS.bor (JS.shl id 3) (JS.band wt 7))]
  | Uint32 v | Int32 v => varint (JS.shr v 0)
  | Sint32 v => varint (JS.shr (zigzag v) 0)
  | Bool_ v => [if v then 1 else 0]
  | Fixed32 v => fixed32_bytes v
  | Sfixed32 v => fixed32_bytes (zigzag v)
  | Bytes l => varint (JS.shr (Z.of_nat (length l)) 0) ++ map JS.to_uint8 l
  | Fork | Reset _ | Finish _ => []
  end.

(** The unsigned number [write_sint32] hands to the varint loop. *)
Definition zigzag32 (value : Z) : Z := JS.shr (zigzag value) 0.

(** Modelled from the spec: the inverse map [unzigzag] of the zigzag law
    belongs to the reader, which is not under [src/]; it is the usual
    [value >>> 1 ^ -(value & 1)] of the wire format. *)
Definition unzigzag (value : Z) : Z :=
  JS.bxor (JS.shr value 1) (- JS.band value 1).

Definition int32 (v : Z) : Prop := - JS.two31 <= v < JS.two31.
Definition uint32 (v : Z) : Prop := 0 <= v < JS.two32.

(** ** The data invariant of the writer and the bytes of its open scope *)

Definition wf (w : Writer) : Prop :=
  match buf w with
  | Some b => length b = len w /\ (pos w <= len w)%nat /\ _slice w <> None
  | None => pos w = 0%nat /\ len w = 0%nat
  end.

Definition content (w : Writer) : bytes :=
  concat (bufs w) ++ match buf w with
                     | Some b => take (pos w) b
                     | None => []
                     end.

(** What the caller of a script sees: results or the exception. *)
Definition observe {A} (o : outcome A) : result A :=
  match o with
  | Return a _ => Ok a
  | Throw e => Err e
  end.

(** The length [write_uint32] computes before it enters the loop. *)
Definition uint32_len (v : Z) : nat :=
  if v <? 128 then 1
  else if v <? 16384 then 2
  else if v <? 2097152 then 3
  else if v <? 268435456 then 4
  else 5.

(** The chunk [expand] seals off before it allocates. *)
Definition sealed (w : Writer) : list bytes :=
  match buf w with
  | Some b => if (0 <? pos w)%nat then [take (pos w) b] else []
  | None => []
  end.

(** The writer [reset] leaves behind. *)
Definition after_reset (c : bool) (w : Writer) : Writer :=
  match pop (_stack w) with
  | Some (rest, top) =>
      if c then mkWriter (constructor_ w) None 0 0 [] (_stack w) (_slice w)
      else mkWriter (constructor_ w) None 0 0 top rest (_slice w)
  | None => mkWriter (constructor_ w) None 0 0 [] (_stack w) (_slice w)
  end.

(** What a write leaves alone: the fork stack, the class, and the
    presence of an active buffer. *)
Definition frame (w w' : Writer) : Prop :=
  _stack w' = _stack w /\ constructor_ w' = constructor_ w /\
  (buf w <> None -> buf w' <> None).

(** [m] writes [bs] in place when the active buffer has room for it. *)
Definition emits (m : M unit) (bs : bytes) : Prop :=
  forall w, wf w -> buf w <> None -> (pos w + length bs <= len w)%nat ->
    exists w', m w = Return tt w' /\ wf w' /\
               content w' = content w ++ bs /\
               pos w' = (pos w + length bs)%nat /\ len w' = len w /\
               frame w w'.

(** [m] adds [bs] to the bytes of the open scope, growing the buffer when
    it has to. *)
Definition appends (m : M unit) (bs : bytes) : Prop :=
  forall w, wf w ->
    exists w', m w = Return tt w' /\ wf w' /\
               content w' = content w ++ bs /\ frame w w' /\
               (bs <> [] -> buf w' <> None /\ (0 < pos w')%nat).

(** C8, as stated: whenever the active buffer is present, [fork] pushes
    exactly one saved chunk list and leaves an empty chunk list. *)
Definition fork_deepens (w : Writer) : Prop :=
  exists w', fork w = Return tt w' /\
             length (_stack w') = S (length (_stack w)) /\
             bufs w' = [].

(** A writer right after [uint32(1); fork()] with [BUFFER_SIZE = 4]: the
    inner scope holds the three octets left of the buffer, at position 0. *)
Definition inner_scope_unwritten : Writer :=
  mkWriter Writer_ (Some [0; 0; 0]) 0 3 [] [[[1]]] (Some slice).

(** The outer scope as the inner [finish()] restores it after
    [uint32(1); fork(); uint32(2); finish()]: one sealed chunk, no active
    buffer. *)
Definition outer_scope_restored (k : species) : Writer :=
  mkWriter k None 0 0 [[1]] [] (Some slice).

(** The script of the fork-isolation scenario. *)
Definition fork_script (A B : call) : list call :=
  [A; Fork; B; Finish false; Finish false].

(** ** Notions used by the further properties *)

(** A value a typed array can hold. *)
Definition octet (b : Z) : Prop := 0 <= b < 256.

(** The number a little-endian string of octets stands for. *)
Fixpoint le256 (bs : bytes) : Z :=
  match bs with
  | [] => 0
  | b :: rest => b + 256 * le256 rest
  end.

(** ** The benchmark's [pad]

    [function pad(str, len, l)] at the end of the file, on strings of
    one-unit characters: [str.length] is the number of characters. *)
Equations pad (str : list Ascii.ascii) (len_ : nat) (l : bool)
    : list Ascii.ascii by wf (len_ - length str)%nat lt :=
pad str len_ l with lt_dec (length str) len_ := {
  | left _ => pad (if l then str ++ [Ascii.Space] else Ascii.Space :: str) len_ l
  | right _ => str }.
Next Obligation. destruct l; rewrite ?length_app; simpl; lia. Qed.

(** * Facts about the arithmetic *)

Lemma shr7_shorter (value : Z) :
  value > 127 ->
  (Z.to_nat (Z.log2 (JS.shr value 7)) < Z.to_nat (Z.log2 value))%nat.
Proof. intros Hv. shorter_by_shift value. Qed.

Lemma Z_below_forallb (P : Z -> bool) (n : nat) :
  forallb P (map Z.of_nat (seq 0 n)) = true ->
  forall r, 0 <= r < Z.of_nat n -> P r = true.
Proof.
  intros H r Hr. rewrite forallb_forall in H. apply H.
  apply in_map_iff. exists (Z.to_nat r). split; [lia|].
  apply in_seq. lia.
Qed.

Lemma to_int32_mod256 (v : Z) : JS.to_int32 v mod 256 = v mod 256.
Proof.
  unfold JS.to_int32, JS.two32, JS.two31.
  pose proof (Z.div_mod (v + 2147483648) 4294967296 ltac:(lia)) as E.
  replace ((v + 2147483648) mod 4294967296 - 2147483648)
    with (v + (- (16777216 * ((v + 2147483648) / 4294967296))) * 256) by lia.
  apply Z.mod_add. lia.
Qed.

Lemma to_int32_small (v : Z) :
  - JS.two31 <= v < JS.two31 -> JS.to_int32 v = v.
Proof.
  unfold JS.to_int32, JS.two32, JS.two31. intros H.
  rewrite Z.mod_small by lia. lia.
Qed.

Lemma to_uint32_small (v : Z) : 0 <= v < JS.two32 -> JS.to_uint32 v = v.
Proof. unfold JS.to_uint32. intros H. apply Z.mod_small. exact H. Qed.

Lemma to_uint32_range (v : Z) : 0 <= JS.to_uint32 v < JS.two32.
Proof. unfold JS.to_uint32, JS.two32. apply Z.mod_pos_bound. lia. Qed.

Lemma shr_0 (v : Z) : JS.shr v 0 = JS.to_uint32 v.
Proof. unfold JS.shr. change (Z.land (JS.to_uint32 0) 31) with 0. apply Z.shiftr_0_r. Qed.

Lemma shr_7 (v : Z) : 0 <= v < JS.two32 -> JS.shr v 7 = v / 128.
Proof.
  intros H. unfold JS.shr. change (Z.land (JS.to_uint32 7) 31) with 7.
  rewrite to_uint32_small by exact H. rewrite Z.shiftr_div_pow2 by lia.
  reflexivity.
Qed.

Lemma lor_128_octet (r : Z) : 0 <= r < 256 -> Z.lor r 128 = 128 + r mod 128.
Proof.
  intros H.
  apply Z.eqb_eq.
  apply (Z_below_forallb (fun r => Z.lor r 128 =? 128 + r mod 128) 256);
    [vm_compute; reflexivity | exact H].
Qed.

(** The octet stored by [buf[pos++] = value | 128]. *)
Lemma continuation_octet (v : Z) :
  JS.to_uint8 (JS.bor v 128) = 128 + v mod 128.
Proof.
  unfold JS.to_uint8, JS.bor. change (JS.to_int32 128) with 128.
  change 256 with (2 ^ 8). rewrite <- Z.land_ones by lia.
  rewrite Z.land_lor_distr_l. change (Z.land 128 (Z.ones 8)) with 128.
  rewrite Z.land_ones by lia. change (2 ^ 8) with 256.
  rewrite to_int32_mod256.
  rewrite lor_128_octet by (apply Z.mod_pos_bound; lia).
  f_equal. apply Z.mod_mod_divide. exists 2. reflexivity.
Qed.

Lemma varint_step (v : Z) :
  varint v = if 127 <? v then (128 + v mod 128) :: varint (JS.shr v 7)
             else [v mod 256].
Proof.
  rewrite (varint_equation_1 v). destruct (Z_gt_dec v 127) as [H|H].
  - rewrite varint_clause_1_equation_1, continuation_octet.
    destruct (Z.ltb_spec 127 v); [reflexivity|lia].
  - rewrite varint_clause_1_equation_2.
    destruct (Z.ltb_spec 127 v); [lia|reflexivity].
Qed.

Lemma varint_loop_step (v : Z) :
  varint_loop v = if 127 <? v then store (JS.bor v 128) ;;; varint_loop (JS.shr v 7)
                  else store v.
Proof.
  rewrite (varint_loop_equation_1 v). destruct (Z_gt_dec v 127) as [H|H].
  - rewrite varint_loop_clause_1_equation_1.
    destruct (Z.ltb_spec 127 v); [reflexivity|lia].
  - rewrite varint_loop_clause_1_equation_2.
    destruct (Z.ltb_spec 127 v); [lia|reflexivity].
Qed.

Lemma div128_bounds (v : Z) :
  0 <= v -> 0 <= v / 128 /\ 128 * (v / 128) <= v < 128 * (v / 128) + 128.
Proof. intros H. Z.to_euclidean_division_equations. lia. Qed.

Lemma varint_step32 (v : Z) :
  0 <= v < JS.two32 ->
  varint v = if 127 <? v then (128 + v mod 128) :: varint (v / 128) else [v].
Proof.
  intros H. rewrite varint_step. destruct (Z.ltb_spec 127 v).
  - rewrite shr_7 by exact H. reflexivity.
  - rewrite Z.mod_small by lia. reflexivity.
Qed.

Lemma low7_of_continuation (m : Z) :
  0 <= m < 128 -> Z.land (128 + m) 127 = m /\ Z.testbit (128 + m) 7 = true.
Proof.
  intros H.
  assert (E : (Z.land (128 + m) 127 =? m) && Z.testbit (128 + m) 7 = true).
  { apply (Z_below_forallb
             (fun m => (Z.land (128 + m) 127 =? m) && Z.testbit (128 + m) 7) 128);
      [vm_compute; reflexivity | exact H]. }
  apply andb_true_iff in E. destruct E as [E1 E2].
  apply Z.eqb_eq in E1. split; assumption.
Qed.

Lemma low7_of_final (m : Z) :
  0 <= m < 128 -> Z.land m 127 = m /\ Z.testbit m 7 = false.
Proof.
  intros H.
  assert (E : (Z.land m 127 =? m) && negb (Z.testbit m 7) = true).
  { apply (Z_below_forallb
             (fun m => (Z.land m 127 =? m) && negb (Z.testbit m 7)) 128);
      [vm_compute; reflexivity | exact H]. }
  apply andb_true_iff in E. destruct E as [E1 E2].
  apply Z.eqb_eq in E1. apply negb_true_iff in E2. split; assumption.
Qed.

(** Decoding the octets of the loop gives the value back. *)
Lemma le128_varint (v : Z) : 0 <= v < JS.two32 -> le128 (varint v) = v.
Proof.
  intros [H0 H1]. revert H1. pattern v. apply Zlt_0_ind; [|exact H0].
  clear v H0. intros v IH H0 H1.
  rewrite varint_step32 by lia. destruct (Z.ltb_spec 127 v) as [Hc|Hc]; simpl.
  - destruct (low7_of_continuation (v mod 128)) as [-> _];
      [apply Z.mod_pos_bound; lia|].
    pose proof (div128_bounds v ltac:(lia)) as B.
    rewrite IH by (unfold JS.two32 in *; lia).
    rewrite (Z.div_mod v 128) at 3 by lia. lia.
  - destruct (low7_of_final v) as [-> _]; lia.
Qed.

Lemma continued_varint (v : Z) : 0 <= v < JS.two32 -> continued (varint v).
Proof.
  intros [H0 H1]. revert H1. pattern v. apply Zlt_0_ind; [|exact H0].
  clear v H0. intros v IH H0 H1.
  rewrite varint_step32 by lia. destruct (Z.ltb_spec 127 v) as [Hc|Hc].
  - assert (Hr : continued (varint (v / 128)))
      by (pose proof (div128_bounds v ltac:(lia));
          apply IH; unfold JS.two32 in *; lia).
    destruct (varint (v / 128)) as [|b r] eqn:E; [destruct Hr|].
    split; [|exact Hr].
    apply low7_of_continuation. apply Z.mod_pos_bound. lia.
  - apply low7_of_final. lia.
Qed.

Ltac peel_varint v q :=
  rewrite (varint_step32 v) by (unfold JS.two32; lia);
  destruct (Z.ltb_spec 127 v);
  [ pose proof (div128_bounds v ltac:(lia));
    set (q := v / 128) in *; clearbody q
  | repeat (match goal with
            | |- context [?a <? ?b] => destruct (Z.ltb_spec a b); try lia
            end); reflexivity ].

Lemma length_varint (v : Z) :
  0 <= v < JS.two32 -> length (varint v) = uint32_len v.
Proof.
  unfold JS.two32, uint32_len. intros H.
  peel_varint v q1. peel_varint q1 q2. peel_varint q2 q3. peel_varint q3 q4.
  rewrite (varint_step32 q4) by (unfold JS.two32; lia).
  destruct (Z.ltb_spec 127 q4); [lia|].
  repeat (match goal with
          | |- context [?a <? ?b] => destruct (Z.ltb_spec a b); try lia
          end); reflexivity.
Qed.

Lemma length_varint_pos (v : Z) : (0 < length (varint v))%nat.
Proof. rewrite varint_step. destruct (127 <? v); simpl; lia. Qed.

(** * Facts about the state *)

Lemma frame_refl (w : Writer) : frame w w.
Proof. repeat split; auto. Qed.

Lemma frame_trans (w1 w2 w3 : Writer) : frame w1 w2 -> frame w2 w3 -> frame w1 w3.
Proof.
  intros (A1 & B1 & C1) (A2 & B2 & C2). repeat split; try congruence. auto.
Qed.

Lemma frame_live (w w' : Writer) : frame w w' -> buf w <> None -> buf w' <> None.
Proof. intros (_ & _ & H). exact H. Qed.

(** Runs the monadic plumbing of a method applied to a writer. *)
Ltac run_m :=
  cbv [bind get ret throw lift when_
       set_buf set_pos set_len set_bufs set_stack set_slice
       constructor_ buf pos len bufs _stack _slice].

(** Reads the fields of a writer that is given as a record. *)
Ltac fields :=
  cbn [constructor_ buf pos len bufs _stack _slice] in *.

Lemma emits_store (x : Z) : emits (store x) [JS.to_uint8 x].
Proof.
  intros [k0 [b|] p l bs st sl] Hwf Hb Hroom; unfold wf in Hwf;
    simpl in Hwf, Hroom, Hb; [|congruence].
  destruct Hwf as (Hlen & Hpos & Hsl).
  eexists. split; [unfold store; run_m; reflexivity|].
  unfold wf, content, frame; fields.
  rewrite length_insert.
  rewrite (take_S_r _ _ (JS.to_uint8 x))
    by (apply list_lookup_insert_eq; lia).
  rewrite take_insert_ge by lia. rewrite app_assoc. simpl.
  repeat split; try lia; try assumption; discriminate.
Qed.

Lemma emits_bind (m1 m2 : M unit) (b1 b2 : bytes) :
  emits m1 b1 -> emits m2 b2 -> emits (m1 ;;; m2) (b1 ++ b2).
Proof.
  intros H1 H2 w Hwf Hb Hroom. rewrite length_app in *.
  destruct (H1 w Hwf Hb ltac:(lia)) as (w1 & E1 & Hwf1 & C1 & P1 & L1 & F1).
  destruct (H2 w1 Hwf1 (frame_live _ _ F1 Hb) ltac:(lia))
    as (w2 & E2 & Hwf2 & C2 & P2 & L2 & F2).
  exists w2. unfold bind. rewrite E1, E2.
  split; [reflexivity|]. split; [assumption|].
  split; [rewrite C2, C1, app_assoc; reflexivity|].
  split; [lia|]. split; [lia|]. apply (frame_trans _ _ _ F1 F2).
Qed.

Lemma emits_varint_loop (v : Z) : emits (varint_loop v) (varint v).
Proof.
  remember (Z.to_nat (Z.log2 v)) as n eqn:En. revert v En.
  induction n as [n IH] using lt_wf_ind. intros v En.
  rewrite varint_loop_step, varint_step.
  destruct (Z.ltb_spec 127 v) as [Hc|Hc].
  - rewrite <- continuation_octet.
    apply (emits_bind _ _ [_] _); [apply emits_store|].
    apply (IH (Z.to_nat (Z.log2 (JS.shr v 7)))); [|reflexivity].
    subst n. apply shr7_shorter. lia.
  - apply emits_store.
Qed.

Lemma constructor_alloc_zeros (k : species) (n : nat) :
  constructor_alloc k n = replicate n 0.
Proof. destruct k; reflexivity. Qed.

Lemma expand_spec (env : Env) (n : nat) (w : Writer) :
  wf w ->
  expand env n w =
  Return tt (mkWriter (constructor_ w)
               (Some (replicate (Nat.max n (BUFFER_SIZE env)) 0))
               0 (Nat.max n (BUFFER_SIZE env))
               (bufs w ++ sealed w) (_stack w)
               (Some (if has_slice env then slice else subarray))).
Proof.
  destruct w as [k0 [b|] p l bs st sl]; unfold wf, sealed, expand; fields.
  - intros (Hlen & Hpos & Hsl). destruct sl as [f|]; [|congruence].
    destruct p as [|p]; run_m; cbn [Nat.ltb Nat.leb slice_call drop];
      rewrite ?app_nil_r, constructor_alloc_zeros; reflexivity.
  - intros [-> ->]. run_m. cbn [Nat.ltb Nat.leb].
    rewrite app_nil_r, constructor_alloc_zeros. reflexivity.
Qed.

Lemma content_sealed (w : Writer) :
  wf w -> concat (bufs w ++ sealed w) = content w.
Proof.
  destruct w as [k0 [b|] p l bs st sl]; unfold wf, sealed, content; fields.
  - intros _. rewrite concat_app. destruct p; simpl; rewrite ?app_nil_r; reflexivity.
  - intros _. rewrite !app_nil_r. reflexivity.
Qed.

Lemma wf_room (w : Writer) : wf w -> (pos w <= len w)%nat.
Proof. unfold wf. destruct (buf w); lia. Qed.

(** The capacity check leaves room for [n] octets and keeps the bytes of
    the scope; when it has nothing to ask for it changes nothing. *)
Lemma reserve_spec (env : Env) (n : nat) (w : Writer) :
  wf w ->
  exists w', reserve env n w = Return tt w' /\ wf w' /\
             content w' = content w /\ (pos w' + n <= len w')%nat /\
             frame w w' /\ (n = 0%nat -> w' = w).
Proof.
  intros Hwf. unfold reserve, bind, get. cbv beta iota.
  pose proof (wf_room w Hwf) as Hroom.
  destruct (Nat.ltb_spec (len w) (pos w + n)) as [Hc|Hc]; unfold when_.
  - rewrite (expand_spec env n w Hwf). eexists. split; [reflexivity|].
    unfold wf, content, frame; fields.
    rewrite length_replicate, take_0, app_nil_r, content_sealed by exact Hwf.
    repeat split; try lia; try discriminate.
  - exists w. repeat split; try assumption; try lia. apply frame_refl.
Qed.

Lemma live_reserve (env : Env) (m : M unit) (bs : bytes) (w : Writer) :
  emits m bs -> wf w -> buf w <> None \/ bs <> [] ->
  exists w', (reserve env (length bs) ;;; m) w = Return tt w' /\ wf w' /\
             content w' = content w ++ bs /\ frame w w' /\ buf w' <> None /\
             ((0 < pos w)%nat \/ bs <> [] -> (0 < pos w')%nat).
Proof.
  intros Hm Hwf Hlive.
  destruct (reserve_spec env (length bs) w Hwf)
    as (w1 & E1 & Hwf1 & C1 & R1 & F1 & Z1).
  assert (Hb1 : buf w1 <> None).
  { destruct Hlive as [Hb|Hne]; [apply (frame_live _ _ F1 Hb)|].
    intros Hnone. unfold wf in Hwf1. rewrite Hnone in Hwf1.
    destruct bs; [congruence|]. simpl in R1. lia. }
  destruct (Hm w1 Hwf1 Hb1 ltac:(lia)) as (w2 & E2 & Hwf2 & C2 & P2 & L2 & F2).
  exists w2. unfold bind. rewrite E1, E2.
  split; [reflexivity|]. split; [assumption|].
  split; [rewrite C2, C1; reflexivity|].
  split; [apply (frame_trans _ _ _ F1 F2)|].
  split; [apply (frame_live _ _ F2 Hb1)|].
  intros Hp. destruct bs as [|x bs].
  - destruct Hp as [Hp|Hp]; [|congruence].
    rewrite (Z1 eq_refl) in P2. simpl in P2. lia.
  - simpl in P2. lia.
Qed.

Lemma appends_reserve (env : Env) (n : nat) (m : M unit) (bs : bytes) :
  length bs = n -> (0 < n)%nat -> emits m bs -> appends (reserve env n ;;; m) bs.
Proof.
  intros <- Hn Hm w Hwf.
  destruct (live_reserve env m bs w Hm Hwf) as (w' & E & Hwf' & C & F & N & P).
  { right. destruct bs; [simpl in Hn; lia | discriminate]. }
  exists w'. split; [exact E|]. split; [exact Hwf'|]. split; [exact C|].
  split; [exact F|]. intros Hne. split; [exact N | apply P; right; exact Hne].
Qed.

Lemma appends_bind (m1 m2 : M unit) (b1 b2 : bytes) :
  appends m1 b1 -> appends m2 b2 -> b2 <> [] -> appends (m1 ;;; m2) (b1 ++ b2).
Proof.
  intros H1 H2 Hne w Hwf.
  destruct (H1 w Hwf) as (w1 & E1 & Hwf1 & C1 & F1 & N1).
  destruct (H2 w1 Hwf1) as (w2 & E2 & Hwf2 & C2 & F2 & N2).
  exists w2. unfold bind. rewrite E1, E2.
  split; [reflexivity|]. split; [assumption|].
  split; [rewrite C2, C1, app_assoc; reflexivity|].
  split; [apply (frame_trans _ _ _ F1 F2) | auto].
Qed.

Lemma appends_then_ret (m : M unit) (bs : bytes) :
  appends m bs -> appends (m ;;; ret tt) (bs ++ []).
Proof.
  intros H w Hwf. destruct (H w Hwf) as (w1 & E1 & Hwf1 & C1 & F1 & N1).
  exists w1. unfold bind, ret. rewrite E1, app_nil_r. auto 6.
Qed.

Lemma appends_tag (env : Env) (id wt : Z) :
  appends (write_tag env id wt) (encode (Tag id wt)).
Proof. apply appends_reserve; [reflexivity | lia | apply emits_store]. Qed.

Lemma appends_uint32 (env : Env) (v : Z) :
  appends (write_uint32 env v) (varint (JS.shr v 0)).
Proof.
  change (write_uint32 env v)
    with (reserve env (uint32_len (JS.shr v 0)) ;;; varint_loop (JS.shr v 0)).
  assert (Hl : length (varint (JS.shr v 0)) = uint32_len (JS.shr v 0))
    by (apply length_varint; rewrite shr_0; apply to_uint32_range).
  apply appends_reserve; [exact Hl | | apply emits_varint_loop].
  rewrite <- Hl. apply length_varint_pos.
Qed.

Lemma appends_bool (env : Env) (v : bool) :
  appends (write_bool env v) (encode (Bool_ v)).
Proof.
  apply appends_reserve; [reflexivity | lia |].
  destruct v; apply emits_store.
Qed.

Lemma appends_fixed32 (env : Env) (v : Z) :
  appends (write_fixed32 env v) (fixed32_bytes v).
Proof.
  apply appends_reserve; [reflexivity | simpl; lia |].
  repeat apply (emits_bind _ _ [_] _); apply emits_store.
Qed.

Lemma inserts_split (s l : bytes) (p : nat) :
  (p + length s <= length l)%nat ->
  list_inserts p s l = take p l ++ s ++ drop (p + length s) l.
Proof.
  intros H.
  rewrite <- (take_drop p l) at 1.
  rewrite <- (take_drop (length s) (drop p l)) at 1.
  rewrite drop_drop.
  assert (Hp : length (take p l) = p) by (rewrite length_take; lia).
  rewrite <- Hp at 1. rewrite <- (Nat.add_0_r (length (take p l))).
  rewrite list_inserts_app_r. f_equal.
  apply list_inserts_0_r. rewrite length_take, length_drop. lia.
Qed.

Lemma take_inserts (s l : bytes) (p : nat) :
  (p + length s <= length l)%nat ->
  take (p + length s) (list_inserts p s l) = take p l ++ s.
Proof.
  intros H. rewrite inserts_split by exact H.
  assert (Hp : length (take p l) = p) by (rewrite length_take; lia).
  rewrite <- Hp at 1. rewrite take_app_add, take_app_length. reflexivity.
Qed.

Lemma emits_set_and_advance (value : list Z) :
  emits (set_and_advance value) (map JS.to_uint8 value).
Proof.
  intros [k0 [b|] p l bs st sl] Hwf Hb Hroom; unfold wf in Hwf;
    fields; [|congruence].
  destruct Hwf as (Hlen & Hpos & Hsl). rewrite length_map in Hroom.
  eexists. split.
  { unfold set_and_advance, typed_set. run_m. rewrite length_map.
    destruct (Nat.ltb_spec (length b) (p + length value)); [lia|].
    reflexivity. }
  unfold wf, content, frame; fields.
  rewrite length_inserts, <- (length_map JS.to_uint8 value).
  rewrite take_inserts by (rewrite length_map; lia).
  rewrite app_assoc, length_map.
  repeat split; try lia; try assumption; discriminate.
Qed.

Lemma emits_copy_and_advance (value : list Z) :
  emits (copy_and_advance value) (map JS.to_uint8 value).
Proof.
  intros [k0 [b|] p l bs st sl] Hwf Hb Hroom; unfold wf in Hwf;
    fields; [|congruence].
  destruct Hwf as (Hlen & Hpos & Hsl). rewrite length_map in Hroom.
  eexists. split.
  { unfold copy_and_advance, buffer_copy. run_m. reflexivity. }
  unfold wf, content, frame; fields.
  rewrite length_inserts, <- (length_map JS.to_uint8 value).
  rewrite take_inserts by (rewrite length_map; lia).
  rewrite app_assoc, length_map.
  repeat split; try lia; try assumption; discriminate.
Qed.

Lemma varint_nonempty (v : Z) : varint v <> [].
Proof.
  intros Hn. pose proof (length_varint_pos v) as H.
  rewrite Hn in H. simpl in H. lia.
Qed.

Lemma appends_bytes (env : Env) (value : list Z) :
  appends (write_bytes env value) (encode (Bytes value)).
Proof.
  unfold write_bytes, encode.
  destruct value as [|x value].
  - apply appends_then_ret, appends_uint32.
  - apply appends_bind; [apply appends_uint32 | | discriminate].
    apply appends_reserve;
      [rewrite length_map; reflexivity | simpl; lia | apply emits_set_and_advance].
Qed.

Lemma appends_bytes_buffer (env : Env) (value : list Z) :
  appends (write_bytes_buffer env value) (encode (Bytes value)).
Proof.
  intros w Hwf. unfold write_bytes_buffer, encode.
  destruct (appends_uint32 env (Z.of_nat (length value)) w Hwf)
    as (w1 & E1 & Hwf1 & C1 & F1 & N1).
  destruct (N1 (varint_nonempty _)) as [Hb1 Hp1].
  pose proof (live_reserve env (copy_and_advance value) (map JS.to_uint8 value)
                w1 (emits_copy_and_advance value) Hwf1 (or_introl Hb1)) as H2.
  rewrite length_map in H2.
  destruct H2 as (w2 & E2 & Hwf2 & C2 & F2 & N2 & P2).
  exists w2. unfold bind at 1. rewrite E1, E2.
  split; [reflexivity|]. split; [assumption|].
  split; [rewrite C2, C1, app_assoc; reflexivity|].
  split; [apply (frame_trans _ _ _ F1 F2) | auto].
Qed.

Lemma encode_nonempty (c : call) : is_write c = true -> encode c <> [].
Proof.
  destruct c; simpl; try discriminate; intros _; try apply varint_nonempty.
  intros Hn. apply app_eq_nil in Hn. destruct Hn as [Hn _].
  apply (varint_nonempty _ Hn).
Qed.

Lemma appends_write (env : Env) (c : call) (k : species) :
  is_write c = true ->
  appends (match c with
           | Tag id wt => write_tag env id wt
           | Uint32 v => write_uint32 env v
           | Int32 v => write_int32 env v
           | Sint32 v => write_sint32 env v
           | Bool_ v => write_bool env v
           | Fixed32 v => write_fixed32 env v
           | Sfixed32 v => write_sfixed32 env v
           | Bytes v => match k with
                        | Writer_ => write_bytes env v
                        | BufferWriter_ => write_bytes_buffer env v
                        end
           | Fork | Reset _ | Finish _ => ret tt
           end) (encode c).
Proof.
  destruct c; try discriminate; intros _.
  - apply appends_tag.
  - apply appends_uint32.
  - apply appends_uint32.
  - apply appends_uint32.
  - apply appends_bool.
  - apply appends_fixed32.
  - apply appends_fixed32.
  - destruct k; [apply appends_bytes | apply appends_bytes_buffer].
Qed.

(** A write call returns [this] and adds its encoding to the open scope;
    it leaves an active buffer with a written prefix. *)
Lemma invoke_write (env : Env) (c : call) (w : Writer) :
  is_write c = true -> wf w ->
  exists w', invoke env c w = Return None w' /\ wf w' /\
             content w' = content w ++ encode c /\ frame w w' /\
             buf w' <> None /\ (0 < pos w')%nat.
Proof.
  intros Hc Hwf.
  destruct (appends_write env c (constructor_ w) Hc w Hwf)
    as (w' & E & Hwf' & C & F & N).
  destruct (N (encode_nonempty c Hc)) as [Hb Hp].
  exists w'. split.
  - unfold invoke, bind at 1, get.
    destruct c; try discriminate; unfold bind, ret; rewrite E; reflexivity.
  - auto 6.
Qed.

Lemma run_writes (env : Env) (ws : list call) (w : Writer) :
  forallb is_write ws = true -> wf w ->
  exists w', run env ws w = Return [] w' /\ wf w' /\
             content w' = content w ++ concat (map encode ws) /\
             frame w w' /\ (ws <> [] -> buf w' <> None).
Proof.
  revert w. induction ws as [|c ws IH]; intros w Hws Hwf.
  - exists w. simpl. rewrite app_nil_r.
    split; [reflexivity|]. split; [assumption|]. split; [reflexivity|].
    split; [apply frame_refl | congruence].
  - simpl in Hws. apply andb_true_iff in Hws. destruct Hws as [Hc Hws].
    destruct (invoke_write env c w Hc Hwf)
      as (w1 & E1 & Hwf1 & C1 & F1 & N1 & P1).
    destruct (IH w1 Hws Hwf1) as (w2 & E2 & Hwf2 & C2 & F2 & N2).
    exists w2. split.
    { cbn [run]. unfold bind. rewrite E1, E2. reflexivity. }
    split; [assumption|].
    split; [rewrite C2, C1; simpl; rewrite app_assoc; reflexivity|].
    split; [apply (frame_trans _ _ _ F1 F2)|].
    intros _. apply (frame_live _ _ F2 N1).
Qed.

(** ** [reset] and [finish] *)

Lemma reset_spec (c : bool) (w : Writer) :
  reset c w = Return tt (after_reset c w).
Proof.
  destruct w as [k0 b p l bs st sl]. unfold reset, after_reset. run_m.
  destruct (pop st) as [[rest top]|]; [destruct c|]; reflexivity.
Qed.

Lemma slice_after_reset (c : bool) (w : Writer) :
  _slice (after_reset c w) = _slice w.
Proof.
  unfold after_reset. destruct (pop (_stack w)) as [[rest top]|];
    [destruct c|]; reflexivity.
Qed.

Lemma constructor_after_reset (c : bool) (w : Writer) :
  constructor_ (after_reset c w) = constructor_ w.
Proof.
  unfold after_reset. destruct (pop (_stack w)) as [[rest top]|];
    [destruct c|]; reflexivity.
Qed.

Lemma fold_left_lengths (subs : list bytes) (a : nat) :
  fold_left (fun n sub => (n + length sub)%nat) subs a
  = (a + length (concat subs))%nat.
Proof.
  revert a. induction subs as [|s subs IH]; intros a; simpl.
  - lia.
  - rewrite IH, length_app. lia.
Qed.

(** The copy loop lays the chunks end to end. *)
Lemma set_each_fits (subs : list bytes) :
  forall pre rest : bytes,
    (length (concat subs) <= length rest)%nat ->
    set_each (pre ++ rest) (length pre) subs
    = Ok (pre ++ concat subs ++ drop (length (concat subs)) rest,
          (length pre + length (concat subs))%nat).
Proof.
  induction subs as [|s subs IH]; intros pre rest Hfit; simpl in *.
  - rewrite Nat.add_0_r. reflexivity.
  - rewrite length_app in Hfit. unfold typed_set.
    destruct (Nat.ltb_spec (length (pre ++ rest)) (length pre + length s))
      as [Hc|Hc]; [rewrite length_app in Hc; lia|].
    rewrite inserts_split by exact Hc.
    rewrite take_app_length, drop_app_add, app_assoc.
    rewrite <- length_app.
    rewrite IH by (rewrite length_drop; lia).
    rewrite drop_drop, !length_app, <- !app_assoc, Nat.add_assoc.
    reflexivity.
Qed.

Lemma bind_get {A} (k : Writer -> M A) (w : Writer) :
  bind get k w = k w w.
Proof. reflexivity. Qed.

Lemma bind_reset {A} (c : bool) (k : unit -> M A) (w : Writer) :
  bind (reset c) k w = k tt (after_reset c w).
Proof. unfold bind. rewrite reset_spec. reflexivity. Qed.

Lemma take_all (b : bytes) (n : nat) : length b = n -> take n b = b.
Proof. intros <-. apply take_ge. lia. Qed.

(** With an active buffer, [finish] hands back the bytes of the open scope
    and resets the writer. *)
Lemma finish_spec (c : bool) (w : Writer) :
  wf w -> buf w <> None ->
  finish c w = Return (Some (content w)) (after_reset c w).
Proof.
  intros Hwf Hb. unfold finish. rewrite bind_get, bind_reset, bind_get.
  rewrite slice_after_reset, constructor_after_reset.
  unfold wf in Hwf. unfold content.
  destruct (buf w) as [b|] eqn:Eb; [clear Hb|congruence].
  destruct Hwf as (Hlen & Hpos & Hsl).
  destruct (_slice w) as [f|] eqn:Ef; [clear Hsl|congruence].
  assert (E1 : (if (pos w <? len w)%nat
                then if (0 <? pos w)%nat
                     then let! s := lift (slice_call (Some f) (Some b) 0 (Some (pos w))) in
                          ret (Some s)
                     else ret (Some [])
                else ret (Some b)) = ret (Some (take (pos w) b))).
  { destruct (Nat.ltb_spec (pos w) (len w)) as [Hc|Hc].
    - destruct (Nat.ltb_spec 0 (pos w)) as [Hz|Hz]; [reflexivity|].
      replace (pos w) with 0%nat by lia. reflexivity.
    - rewrite take_all by lia. reflexivity. }
  rewrite E1. clear E1. unfold bind at 1, ret at 1.
  destruct (bufs w) as [|s0 subs] eqn:Ebs; [reflexivity|].
  cbn [length Nat.eqb]. rewrite fold_left_lengths, constructor_alloc_zeros.
  set (subs' := s0 :: subs).
  change (replicate (pos w + length (concat subs')) 0)
    with ([] ++ replicate (pos w + length (concat subs')) 0).
  unfold bind at 1, lift at 1.
  change 0%nat with (length (@nil Z)) at 1.
  rewrite set_each_fits by (rewrite length_replicate; lia).
  unfold ret at 1. cbn [fst snd length app Nat.add].
  unfold typed_set, bind, lift, ret.
  assert (Ht : length (take (pos w) b) = pos w) by (rewrite length_take; lia).
  assert (Hr : length (drop (length (concat subs'))
                         (replicate (pos w + length (concat subs')) 0)) = pos w)
    by (rewrite length_drop, length_replicate; lia).
  destruct (Nat.ltb_spec
              (length (concat subs' ++ drop (length (concat subs'))
                         (replicate (pos w + length (concat subs')) 0)))
              (length (concat subs') + length (take (pos w) b))) as [Hc|Hc];
    [rewrite length_app in Hc; lia|].
  rewrite inserts_split by exact Hc.
  rewrite take_app_length, drop_app_add, Ht.
  rewrite (drop_ge (drop _ _) (pos w)) by (rewrite Hr; lia).
  rewrite app_nil_r. reflexivity.
Qed.

(** Without an active buffer, [finish] returns [null] when the scope has
    no chunk, and fails in its last [set] when it has some. *)
Lemma finish_absent (c : bool) (w : Writer) :
  wf w -> buf w = None ->
  finish c w = match bufs w with
               | [] => Return None (after_reset c w)
               | _ :: _ => Throw TypeError
               end.
Proof.
  intros Hwf Hb. unfold finish. rewrite bind_get, bind_reset, bind_get.
  rewrite constructor_after_reset.
  unfold wf in Hwf. rewrite Hb in *. destruct Hwf as [Hp Hl].
  unfold bind at 1, ret at 1.
  destruct (bufs w) as [|s0 subs] eqn:Ebs; [reflexivity|].
  cbn [length Nat.eqb]. rewrite fold_left_lengths, constructor_alloc_zeros, Hp.
  set (subs' := s0 :: subs).
  change (replicate (0 + length (concat subs')) 0)
    with ([] ++ replicate (length (concat subs')) 0).
  unfold bind at 1, lift at 1.
  change 0%nat with (length (@nil Z)) at 1.
  rewrite set_each_fits by (rewrite length_replicate; lia).
  reflexivity.
Qed.

Lemma finish_buffer_spec (c : bool) (w : Writer) :
  wf w -> buf w <> None ->
  finish_buffer c w = Return (Some (content w)) (after_reset c w).
Proof.
  intros Hwf Hb. unfold finish_buffer. rewrite bind_get, bind_reset.
  unfold content. destruct (buf w) as [b|] eqn:Eb; [clear Hb|congruence].
  destruct (bufs w) as [|s0 subs] eqn:Ebs; [reflexivity|].
  cbn [length Nat.eqb]. set (subs' := s0 :: subs).
  destruct (Nat.ltb_spec 0 (pos w)) as [Hz|Hz].
  - unfold buffer_slice, bind, lift, ret.
    rewrite concat_app. simpl. rewrite app_nil_r. reflexivity.
  - replace (pos w) with 0%nat by lia. rewrite take_0, app_nil_r. reflexivity.
Qed.

Lemma finish_buffer_absent (c : bool) (w : Writer) :
  wf w -> buf w = None ->
  finish_buffer c w = match bufs w with
                      | [] => Throw TypeError
                      | _ :: _ => Return (Some (concat (bufs w))) (after_reset c w)
                      end.
Proof.
  intros Hwf Hb. unfold finish_buffer. rewrite bind_get, bind_reset.
  unfold wf in Hwf. rewrite Hb in *. destruct Hwf as [-> Hl].
  destruct (bufs w) as [|s0 subs] eqn:Ebs; reflexivity.
Qed.

(** ** [fork] *)

Lemma fork_noop (w : Writer) :
  buf w = None \/ pos w = 0%nat -> fork w = Return tt w.
Proof.
  destruct w as [k0 b p l bs st sl]. fields. unfold fork. run_m.
  intros [->| ->]; [reflexivity|]. destruct b; reflexivity.
Qed.

Lemma fork_spec (w : Writer) (b : bytes) :
  wf w -> buf w = Some b -> (0 < pos w)%nat ->
  fork w = Return tt (mkWriter (constructor_ w)
                        (if (pos w <? len w)%nat then Some (drop (pos w) b) else None)
                        0 (len w - pos w)
                        [] (_stack w ++ [bufs w ++ [take (pos w) b]])
                        (_slice w)).
Proof.
  destruct w as [k0 b0 p l bs st sl]. unfold wf. fields.
  intros Hwf -> Hp. destruct Hwf as (Hlen & Hpos & Hsl).
  destruct sl as [f|]; [|congruence].
  unfold fork, slice_call. run_m.
  destruct (Nat.ltb_spec 0 p) as [_|?]; [|lia].
  destruct (Nat.ltb_spec p l) as [Hc|Hc].
  - cbn [drop]. rewrite length_drop, Hlen. reflexivity.
  - rewrite (take_all b p) by lia. replace (l - p)%nat with 0%nat by lia.
    reflexivity.
Qed.

(** * Facts about the zigzag map *)

Lemma to_int32_range (x : Z) : int32 (JS.to_int32 x).
Proof.
  unfold int32, JS.to_int32, JS.two31, JS.two32.
  pose proof (Z.mod_pos_bound (x + 2147483648) 4294967296 ltac:(lia)). lia.
Qed.

Lemma to_int32_idem (x : Z) : JS.to_int32 (JS.to_int32 x) = JS.to_int32 x.
Proof. apply to_int32_small. apply to_int32_range. Qed.

Lemma to_uint32_to_int32 (x : Z) : JS.to_uint32 (JS.to_int32 x) = JS.to_uint32 x.
Proof.
  unfold JS.to_uint32, JS.to_int32, JS.two31, JS.two32.
  pose proof (Z.div_mod (x + 2147483648) 4294967296 ltac:(lia)) as E.
  replace ((x + 2147483648) mod 4294967296 - 2147483648)
    with (x + (- ((x + 2147483648) / 4294967296)) * 4294967296) by lia.
  apply Z.mod_add. lia.
Qed.

Lemma to_uint32_lnot_to_int32 (x : Z) :
  JS.to_uint32 (Z.lnot (JS.to_int32 x)) = JS.to_uint32 (- x - 1).
Proof.
  unfold JS.to_uint32, JS.to_int32, JS.two31, JS.two32.
  pose proof (Z.add_lnot_diag ((x + 2147483648) mod 4294967296 - 2147483648)) as L.
  pose proof (Z.div_mod (x + 2147483648) 4294967296 ltac:(lia)) as E.
  replace (Z.lnot ((x + 2147483648) mod 4294967296 - 2147483648))
    with (- x - 1 + ((x + 2147483648) / 4294967296) * 4294967296) by lia.
  apply Z.mod_add. lia.
Qed.

Lemma shl_1 (v : Z) : int32 v -> JS.shl v 1 = JS.to_int32 (2 * v).
Proof.
  intros H. unfold JS.shl. change (Z.land (JS.to_uint32 1) 31) with 1.
  rewrite (to_int32_small v) by exact H.
  rewrite Z.shiftl_mul_pow2 by lia. f_equal. lia.
Qed.

Lemma sar_31 (v : Z) : int32 v -> JS.sar v 31 = if 0 <=? v then 0 else -1.
Proof.
  intros H. unfold JS.sar. change (Z.land (JS.to_uint32 31) 31) with 31.
  rewrite (to_int32_small v) by exact H.
  rewrite Z.shiftr_div_pow2 by lia. change (2 ^ 31) with 2147483648.
  unfold int32, JS.two31 in H.
  destruct (Z.leb_spec 0 v); Z.to_euclidean_division_equations; lia.
Qed.

(** On 32-bit signed values the zigzag map doubles the non-negative ones
    and sends [v < 0] to [-2v - 1]. *)
Lemma zigzag32_closed (v : Z) :
  int32 v -> zigzag32 v = if 0 <=? v then 2 * v else - 2 * v - 1.
Proof.
  intros H. unfold zigzag32, zigzag, JS.bxor. rewrite shr_0.
  rewrite shl_1, sar_31, to_int32_idem by exact H.
  unfold int32, JS.two31 in H.
  destruct (Z.leb_spec 0 v).
  - change (JS.to_int32 0) with 0. rewrite Z.lxor_0_r, to_uint32_to_int32.
    apply to_uint32_small. unfold JS.two32. lia.
  - change (JS.to_int32 (-1)) with (-1).
    rewrite Z.lxor_m1_r, to_uint32_lnot_to_int32.
    rewrite to_uint32_small by (unfold JS.two32; lia). lia.
Qed.

Lemma shr_1 (u : Z) : uint32 u -> JS.shr u 1 = u / 2.
Proof.
  intros H. unfold JS.shr. change (Z.land (JS.to_uint32 1) 31) with 1.
  rewrite to_uint32_small by exact H. rewrite Z.shiftr_div_pow2 by lia.
  reflexivity.
Qed.

Lemma band_1 (u : Z) : JS.band u 1 = u mod 2.
Proof.
  unfold JS.band. change (JS.to_int32 1) with (Z.ones 1).
  rewrite Z.land_ones by lia. change (2 ^ 1) with 2.
  unfold JS.to_int32, JS.two31, JS.two32.
  pose proof (Z.div_mod (u + 2147483648) 4294967296 ltac:(lia)) as E.
  replace ((u + 2147483648) mod 4294967296 - 2147483648)
    with (u + (- (2147483648 * ((u + 2147483648) / 4294967296))) * 2) by lia.
  apply Z.mod_add. lia.
Qed.

Lemma unzigzag_closed (u : Z) :
  uint32 u -> unzigzag u = if u mod 2 =? 0 then u / 2 else - (u / 2) - 1.
Proof.
  intros H. unfold unzigzag, JS.bxor. rewrite shr_1, band_1 by exact H.
  unfold uint32, JS.two32 in H.
  assert (Hq : - JS.two31 <= u / 2 < JS.two31)
    by (unfold JS.two31; Z.to_euclidean_division_equations; lia).
  rewrite (to_int32_small (u / 2)) by exact Hq.
  pose proof (Z.mod_pos_bound u 2 ltac:(lia)) as Hm.
  destruct (Z.eqb_spec (u mod 2) 0) as [E|E].
  - rewrite E. change (JS.to_int32 (- 0)) with 0. apply Z.lxor_0_r.
  - replace (u mod 2) with 1 by lia. change (JS.to_int32 (- (1))) with (-1).
    rewrite Z.lxor_m1_r. pose proof (Z.add_lnot_diag (u / 2)). lia.
Qed.

(** * Scripts *)

Lemma run_app (env : Env) (cs1 cs2 : list call) (w : Writer) :
  run env (cs1 ++ cs2) w =
  match run env cs1 w with
  | Return rs1 w1 =>
      match run env cs2 w1 with
      | Return rs2 w2 => Return (rs1 ++ rs2) w2
      | Throw e => Throw e
      end
  | Throw e => Throw e
  end.
Proof.
  revert w. induction cs1 as [|c cs1 IH]; intros w.
  - simpl. unfold ret. destruct (run env cs2 w); reflexivity.
  - cbn [app run]. unfold bind at 1 3.
    destruct (invoke env c w) as [r w1|e]; [|reflexivity].
    unfold bind. rewrite IH.
    destruct (run env cs1 w1) as [rs1 w2|e]; [|reflexivity].
    unfold ret. destruct (run env cs2 w2) as [rs2 w3|e]; [|reflexivity].
    destruct r; reflexivity.
Qed.

Lemma run_cons (env : Env) (c : call) (cs : list call) (w : Writer) :
  run env (c :: cs) w =
  match invoke env c w with
  | Return r w1 =>
      match run env cs w1 with
      | Return rs w2 =>
          Return (match r with Some x => x :: rs | None => rs end) w2
      | Throw e => Throw e
      end
  | Throw e => Throw e
  end.
Proof. reflexivity. Qed.

Lemma wf_new (k : species) : wf (new_ k).
Proof. split; reflexivity. Qed.

(** A script of writes closed by [finish()] yields the encodings of the
    writes, in order, whatever the class of the writer and the settings. *)
Lemma run_writes_finish (env : Env) (k : species) (ws : list call) :
  forallb is_write ws = true -> ws <> [] ->
  observe (run env (ws ++ [Finish false]) (new_ k))
  = Ok [Some (concat (map encode ws))].
Proof.
  intros Hws Hne.
  destruct (run_writes env ws (new_ k) Hws (wf_new k))
    as (w1 & E1 & Hwf1 & C1 & (_ & Hk & _) & N1).
  rewrite run_app, E1. cbn [run]. unfold bind at 1, invoke.
  rewrite bind_get, Hk. cbn [constructor_ new_].
  assert (Hf : (match k with
                | Writer_ => finish false
                | BufferWriter_ => finish_buffer false
                end) w1 = Return (Some (content w1)) (after_reset false w1)).
  { destruct k; [apply finish_spec | apply finish_buffer_spec]; auto. }
  unfold bind at 1. rewrite Hf. unfold ret, bind. cbn [observe app].
  rewrite C1. reflexivity.
Qed.

Lemma pop_snoc {A} (l : list A) (x : A) : pop (l ++ [x]) = Some (l, x).
Proof. unfold pop. rewrite last_snoc, removelast_last. reflexivity. Qed.

Lemma invoke_fork (env : Env) (w : Writer) :
  invoke env Fork w = match fork w with
                      | Return _ w' => Return None w'
                      | Throw e => Throw e
                      end.
Proof. unfold invoke. rewrite bind_get. unfold bind, ret. reflexivity. Qed.

Lemma invoke_finish (env : Env) (c : bool) (w : Writer) :
  invoke env (Finish c) w =
  match (match constructor_ w with
         | Writer_ => finish c
         | BufferWriter_ => finish_buffer c
         end) w with
  | Return r w' => Return (Some r) w'
  | Throw e => Throw e
  end.
Proof. unfold invoke. rewrite bind_get. unfold bind, ret. reflexivity. Qed.

(** * The data invariant holds in every state a script can reach *)

Lemma wf_after_reset (c : bool) (w : Writer) : wf (after_reset c w).
Proof.
  unfold after_reset. destruct (pop (_stack w)) as [[rest top]|];
    [destruct c|]; split; reflexivity.
Qed.

Lemma wf_forked (w : Writer) (b : bytes) :
  wf w -> buf w = Some b ->
  wf (mkWriter (constructor_ w)
        (if (pos w <? len w)%nat then Some (drop (pos w) b) else None)
        0 (len w - pos w) [] (_stack w ++ [bufs w ++ [take (pos w) b]])
        (_slice w)).
Proof.
  unfold wf. intros Hwf Eb. rewrite Eb in Hwf. destruct Hwf as (Hl & Hp & Hs).
  fields. destruct (Nat.ltb_spec (pos w) (len w)).
  - rewrite length_drop. repeat split; try lia; assumption.
  - split; lia.
Qed.

Lemma fork_wf (w w' : Writer) : wf w -> fork w = Return tt w' -> wf w'.
Proof.
  intros Hwf E. destruct (buf w) as [b|] eqn:Eb.
  - destruct (pos w) as [|p] eqn:Ep.
    + rewrite fork_noop in E by (right; exact Ep). congruence.
    + rewrite (fork_spec w b Hwf Eb) in E by lia.
      injection E as <-. apply wf_forked; assumption.
  - rewrite fork_noop in E by (left; exact Eb). congruence.
Qed.

Lemma finish_wf (c : bool) (w w' : Writer) (r : option bytes) :
  wf w ->
  (match constructor_ w with
   | Writer_ => finish c
   | BufferWriter_ => finish_buffer c
   end) w = Return r w' ->
  w' = after_reset c w.
Proof.
  intros Hwf E. destruct (buf w) as [b|] eqn:Eb.
  - assert (Hb : buf w <> None) by congruence.
    destruct (constructor_ w);
      [rewrite finish_spec in E by assumption
      |rewrite finish_buffer_spec in E by assumption]; congruence.
  - destruct (constructor_ w);
      [rewrite finish_absent in E by assumption
      |rewrite finish_buffer_absent in E by assumption];
      destruct (bufs w); congruence.
Qed.

Lemma invoke_wf (env : Env) (c : call) (w w' : Writer) (r : option (option bytes)) :
  wf w -> invoke env c w = Return r w' -> wf w'.
Proof.
  intros Hwf E. destruct (is_write c) eqn:Hc.
  - destruct (invoke_write env c w Hc Hwf) as (w1 & E1 & Hwf1 & _).
    congruence.
  - destruct c; try discriminate.
    + rewrite invoke_fork in E. destruct (fork w) as [[] w1|e] eqn:Ef;
        [|discriminate].
      injection E as _ <-. apply (fork_wf w w1 Hwf Ef).
    + unfold invoke in E. rewrite bind_get in E. unfold bind in E.
      rewrite reset_spec in E. injection E as _ <-. apply wf_after_reset.
    + rewrite invoke_finish in E.
      destruct ((match constructor_ w with
                 | Writer_ => finish clearForkedStates
                 | BufferWriter_ => finish_buffer clearForkedStates
                 end) w) as [r1 w1|e] eqn:Ef; [|discriminate].
      injection E as _ <-.
      rewrite (finish_wf clearForkedStates w w1 r1 Hwf Ef).
      apply wf_after_reset.
Qed.

Lemma run_wf (env : Env) (cs : list call) (w w' : Writer) (rs : list (option bytes)) :
  wf w -> run env cs w = Return rs w' -> wf w'.
Proof.
  revert w rs. induction cs as [|c cs IH]; intros w rs Hwf E.
  - injection E as _ <-. exact Hwf.
  - rewrite run_cons in E.
    destruct (invoke env c w) as [r w1|e] eqn:E1; [|discriminate].
    destruct (run env cs w1) as [rs1 w2|e] eqn:E2; [|discriminate].
    injection E as _ <-.
    apply (IH w1 rs1 (invoke_wf env c w w1 r Hwf E1) E2).
Qed.

(** Every writer a script leaves behind, started on a new writer,
    satisfies the data invariant. *)
Lemma reachable_wf (env : Env) (k : species) (cs : list call)
    (w : Writer) (rs : list (option bytes)) :
  run env cs (new_ k) = Return rs w -> wf w.
Proof. apply run_wf, wf_new. Qed.

(** * The fork-isolation scenario, for any two writes *)

(** After [A; fork(); B; finish()] on a new writer of either class, the
    call to [finish] has returned the bytes of [B], and the writer is back
    in the outer scope: the bytes of [A] are in its chunk list, and it has
    no active buffer. *)
Lemma inner_finish_returns_inner_bytes (env : Env) (k : species) (A B : call) :
  is_write A = true -> is_write B = true ->
  exists w,
    run env [A; Fork; B; Finish false] (new_ k) = Return [Some (encode B)] w /\
    wf w /\ buf w = None /\ bufs w <> [] /\ concat (bufs w) = encode A /\
    _stack w = [] /\ constructor_ w = k.
Proof.
  intros HA HB.
  destruct (invoke_write env A (new_ k) HA (wf_new k))
    as (w1 & E1 & Hwf1 & C1 & (S1 & K1 & _) & N1 & P1).
  destruct (buf w1) as [b|] eqn:Eb; [clear N1|congruence].
  pose proof (fork_spec w1 b Hwf1 Eb P1) as E2.
  set (w2 := mkWriter (constructor_ w1)
               (if (pos w1 <? len w1)%nat then Some (drop (pos w1) b) else None)
               0 (len w1 - pos w1) [] (_stack w1 ++ [bufs w1 ++ [take (pos w1) b]])
               (_slice w1)) in *.
  assert (Hwf2 : wf w2) by (apply wf_forked; assumption).
  destruct (invoke_write env B w2 HB Hwf2)
    as (w3 & E3 & Hwf3 & C3 & (S3 & K3 & _) & N3 & P3).
  assert (E4 : (match constructor_ w3 with
                | Writer_ => finish false
                | BufferWriter_ => finish_buffer false
                end) w3 = Return (Some (content w3)) (after_reset false w3)).
  { destruct (constructor_ w3);
      [apply finish_spec | apply finish_buffer_spec]; assumption. }
  assert (C2 : content w2 = []).
  { unfold content. subst w2. fields. destruct (pos w1 <? len w1)%nat; reflexivity. }
  rewrite C2 in C3. simpl in C3.
  assert (Hr : after_reset false w3
               = mkWriter k None 0 0 (bufs w1 ++ [take (pos w1) b]) [] (_slice w3)).
  { unfold after_reset. rewrite S3. subst w2. fields.
    rewrite S1. cbn [new_ _stack app]. change [?x] with ([] ++ [x]).
    rewrite pop_snoc, K3, K1. reflexivity. }
  eexists. split.
  { rewrite run_cons, E1. cbv beta iota.
    rewrite run_cons, invoke_fork, E2. cbv beta iota.
    rewrite run_cons, E3. cbv beta iota.
    rewrite run_cons, invoke_finish, E4, Hr, C3.
    reflexivity. }
  fields. split; [split; reflexivity|]. split; [reflexivity|].
  split; [intros Hn; apply app_eq_nil in Hn; destruct Hn; discriminate|].
  split; [|split; reflexivity].
  rewrite concat_app. simpl. rewrite app_nil_r.
  unfold content in C1. rewrite Eb in C1. exact C1.
Qed.

(** The whole scenario: the outer [finish()] of the typed-array writer
    throws, that of the node-buffer writer returns the bytes of [A]. *)
Lemma fork_script_outcomes (env : Env) (A B : call) :
  is_write A = true -> is_write B = true ->
  observe (run env [A; Fork; B; Finish false] (new_ Writer_))
  = Ok [Some (encode B)] /\
  observe (run env (fork_script A B) (new_ Writer_)) = Err TypeError /\
  observe (run env (fork_script A B) (new_ BufferWriter_))
  = Ok [Some (encode B); Some (encode A)].
Proof.
  intros HA HB.
  change (fork_script A B) with ([A; Fork; B; Finish false] ++ [Finish false]).
  split; [|split].
  - destruct (inner_finish_returns_inner_bytes env Writer_ A B HA HB)
      as (w & E & _). rewrite E. reflexivity.
  - destruct (inner_finish_returns_inner_bytes env Writer_ A B HA HB)
      as (w & E & Hwf & Hb & Hne & Hc & Hs & Hk).
    rewrite run_app, E, run_cons.
    rewrite invoke_finish, Hk, (finish_absent false w Hwf Hb).
    destruct (bufs w); [congruence | reflexivity].
  - destruct (inner_finish_returns_inner_bytes env BufferWriter_ A B HA HB)
      as (w & E & Hwf & Hb & Hne & Hc & Hs & Hk).
    rewrite run_app, E, run_cons.
    rewrite invoke_finish, Hk, (finish_buffer_absent false w Hwf Hb).
    destruct (bufs w) eqn:Ebs; [congruence|]. rewrite Hc. reflexivity.
Qed.

(** * The literal scenarios of the specification *)

Example scenario_tag_uint32 :
  observe (run env0 [Tag 1 2; Uint32 150; Finish false] (new_ Writer_))
  = Ok [Some [10; 150; 1]].
Proof. vm_compute. reflexivity. Qed.

Example scenario_bool :
  observe (run env0 [Bool_ true; Bool_ false; Finish false] (new_ Writer_))
  = Ok [Some [1; 0]].
Proof. vm_compute. reflexivity. Qed.

Example scenario_sint32 :
  observe (run env0 [Sint32 (-1); Finish false] (new_ Writer_))
  = Ok [Some [1]].
Proof. vm_compute. reflexivity. Qed.

Example scenario_fixed32 :
  observe (run env0 [Fixed32 1; Finish false] (new_ Writer_))
  = Ok [Some [1; 0; 0; 0]].
Proof. vm_compute. reflexivity. Qed.

Example scenario_bytes :
  observe (run env0 [Bytes [170; 187]; Finish false] (new_ BufferWriter_))
  = Ok [Some [2; 170; 187]].
Proof. vm_compute. reflexivity. Qed.

(** * Octets *)

Lemma to_uint8_octet (x : Z) : octet (JS.to_uint8 x).
Proof. unfold octet, JS.to_uint8. apply Z.mod_pos_bound. lia. Qed.

Lemma to_uint8_of_octet (b : Z) : octet b -> JS.to_uint8 b = b.
Proof. unfold octet, JS.to_uint8. intros H. apply Z.mod_small. exact H. Qed.

Lemma map_to_uint8_octets (bs : bytes) :
  Forall octet bs -> map JS.to_uint8 bs = bs.
Proof.
  induction 1 as [|b bs Hb _ IH]; simpl; [reflexivity|].
  rewrite IH, to_uint8_of_octet by exact Hb. reflexivity.
Qed.

Lemma Forall_octet_map (l : list Z) : Forall octet (map JS.to_uint8 l).
Proof. induction l; simpl; constructor; auto using to_uint8_octet. Qed.

Lemma varint_octets (v : Z) : Forall octet (varint v).
Proof.
  remember (Z.to_nat (Z.log2 v)) as n eqn:En. revert v En.
  induction n as [n IH] using lt_wf_ind. intros v En.
  rewrite varint_step. destruct (Z.ltb_spec 127 v) as [Hc|Hc].
  - constructor.
    + unfold octet. pose proof (Z.mod_pos_bound v 128 ltac:(lia)). lia.
    + apply (IH (Z.to_nat (Z.log2 (JS.shr v 7)))); [|reflexivity].
      subst n. apply shr7_shorter. lia.
  - constructor; [|constructor]. apply (to_uint8_octet v).
Qed.

Lemma encode_octets (c : call) : Forall octet (encode c).
Proof.
  destruct c; simpl; try apply varint_octets; try apply Forall_octet_map;
    try (constructor; [|constructor]); try apply to_uint8_octet.
  - destruct value; unfold octet; lia.
  - apply Forall_app. split; [apply varint_octets | apply Forall_octet_map].
  - constructor.
  - constructor.
  - constructor.
Qed.

Lemma encodes_octets (ws : list call) : Forall octet (concat (map encode ws)).
Proof.
  induction ws as [|c ws IH]; simpl; [constructor|].
  apply Forall_app. split; [apply encode_octets | exact IH].
Qed.

(** * The properties of the specification *)

(** C1 (fork isolation), at [A = uint32(1)], [B = uint32(2)] on the
    typed-array writer: the inner [finish()] returns exactly the bytes of
    [B], and leaves the outer scope with the bytes of [A] sealed and no
    active buffer; the outer [finish()] then throws instead of returning
    the bytes of [A].  The node-buffer writer returns them. *)
Theorem outer_finish_after_fork_throws :
  run env0 [Uint32 1; Fork; Uint32 2; Finish false] (new_ Writer_)
  = Return [Some [2]] (outer_scope_restored Writer_) /\
  finish false (outer_scope_restored Writer_) = Throw TypeError /\
  observe (run env0 (fork_script (Uint32 1) (Uint32 2)) (new_ Writer_))
  = Err TypeError /\
  observe (run env0 (fork_script (Uint32 1) (Uint32 2)) (new_ BufferWriter_))
  = Ok [Some [2]; Some [1]].
Proof.
  split; [vm_compute; reflexivity|]. split; [reflexivity|].
  destruct (fork_script_outcomes env0 (Uint32 1) (Uint32 2) eq_refl eq_refl)
    as (_ & Hw & Hb).
  split; [exact Hw | exact Hb].
Qed.

(** C2 ([reset(true)]), what the code does: on every writer the call
    clears the chunk list, the active buffer, the position and the
    capacity, and leaves the fork stack as it was; after
    [uint32(1); fork()] the stack still holds the saved chunk list, and a
    later [reset()] pops it and makes it the current one. *)
Theorem reset_clear_all_keeps_fork_stack :
  (forall w, exists w',
      reset true w = Return tt w' /\ _stack w' = _stack w /\
      bufs w' = [] /\ buf w' = None /\ pos w' = 0%nat /\ len w' = 0%nat) /\
  run env0 [Uint32 1; Fork; Reset true] (new_ Writer_)
  = Return [] (mkWriter Writer_ None 0 0 [] [[[1]]] (Some slice)) /\
  run env0 [Uint32 1; Fork; Reset true; Reset false] (new_ Writer_)
  = Return [] (mkWriter Writer_ None 0 0 [[1]] [] (Some slice)).
Proof.
  split; [|split; vm_compute; reflexivity].
  intros w. exists (after_reset true w). split; [apply reset_spec|].
  unfold after_reset. destruct (pop (_stack w)) as [[rest top]|];
    repeat split; reflexivity.
Qed.

(** C3 ([finish] without an active buffer): on a new typed-array writer
    [finish()] returns [null]; with sealed chunks pending and no active
    buffer it throws; on a new node-buffer writer it throws. *)
Theorem finish_without_active_buffer :
  finish false (new_ Writer_) = Return None (new_ Writer_) /\
  finish false (outer_scope_restored Writer_) = Throw TypeError /\
  finish_buffer false (new_ BufferWriter_) = Throw TypeError.
Proof. repeat split; reflexivity. Qed.

(** C4 (the two classes): on the fork-isolation script, and on the script
    made of one [finish()], the typed-array writer and the node-buffer
    writer do not show the caller the same thing. *)
Theorem writer_classes_disagree :
  observe (run env0 (fork_script (Uint32 1) (Uint32 2)) (new_ Writer_))
  = Err TypeError /\
  observe (run env0 (fork_script (Uint32 1) (Uint32 2)) (new_ BufferWriter_))
  = Ok [Some [2]; Some [1]] /\
  observe (run env0 [Finish false] (new_ Writer_)) = Ok [None] /\
  observe (run env0 [Finish false] (new_ BufferWriter_)) = Err TypeError.
Proof.
  destruct (fork_script_outcomes env0 (Uint32 1) (Uint32 2) eq_refl eq_refl)
    as (_ & Hw & Hb).
  split; [exact Hw|]. split; [exact Hb|]. split; reflexivity.
Qed.

(** C5 (varint length law).  For every 32-bit unsigned [v], [uint32(v)]
    returns normally and adds to the open scope exactly 1 octet if
    [v <= 127], 2 if [v <= 16383], 3 if [v <= 2097151], 4 if
    [v <= 268435455] and 5 otherwise; the octets are the base-128 digits
    of [v], least significant first, with bit 0x80 set on every octet
    except the last; each of them is an octet, between 0 and 255. *)
Theorem uint32_varint_length_law (env : Env) (w : Writer) (v : Z) :
  wf w -> uint32 v ->
  exists w' bs,
    write_uint32 env v w = Return tt w' /\
    content w' = content w ++ bs /\
    length bs = (if v <=? 127 then 1%nat
                 else if v <=? 16383 then 2%nat
                 else if v <=? 2097151 then 3%nat
                 else if v <=? 268435455 then 4%nat
                 else 5%nat) /\
    Forall octet bs /\
    continued bs /\
    le128 bs = v.
Proof.
  intros Hwf Hv.
  destruct (appends_uint32 env v w Hwf) as (w' & E & _ & C & _ & _).
  rewrite shr_0, to_uint32_small in C by exact Hv.
  exists w', (varint v).
  split; [exact E|]. split; [exact C|].
  split; [|split; [apply varint_octets|];
           split; [apply continued_varint | apply le128_varint]; exact Hv].
  rewrite length_varint by exact Hv. unfold uint32_len.
  repeat match goal with
         | |- context [?a <? ?b] => destruct (Z.ltb_spec a b)
         | |- context [?a <=? ?b] => destruct (Z.leb_spec a b)
         end; try reflexivity; lia.
Qed.

Lemma uint32_varint_length_law_witness :
  exists w' bs,
    write_uint32 env0 300 (new_ Writer_) = Return tt w' /\
    content w' = content (new_ Writer_) ++ bs /\
    length bs = 2%nat /\ Forall octet bs /\ continued bs /\ le128 bs = 300.
Proof.
  apply (uint32_varint_length_law env0 (new_ Writer_) 300).
  - split; reflexivity.
  - unfold uint32, JS.two32. lia.
Defined.

(** C6 (buffer growth).  On every writer that satisfies the data
    invariant and for every requested length [n], [expand] returns
    normally; when [pos > 0] it appends [buf[0:pos)] to the completed
    chunks, which are otherwise untouched; the new active buffer is fresh,
    of size [max(n, BUFFER_SIZE)], with [pos = 0] and [len] that size, so
    at least [n] octets are free from [pos] on; the bytes written so far
    are all in the chunk list, unchanged. *)
Theorem expand_establishes_room (env : Env) (w : Writer) (n : nat) :
  wf w ->
  exists w',
    expand env n w = Return tt w' /\
    ((0 < pos w)%nat ->
       exists b, buf w = Some b /\ bufs w' = bufs w ++ [take (pos w) b]) /\
    (pos w = 0%nat -> bufs w' = bufs w) /\
    buf w' = Some (replicate (Nat.max n (BUFFER_SIZE env)) 0) /\
    pos w' = 0%nat /\
    len w' = Nat.max n (BUFFER_SIZE env) /\
    (pos w' + n <= len w')%nat /\
    concat (bufs w') = content w /\
    content w' = content w /\
    _stack w' = _stack w /\
    wf w'.
Proof.
  intros Hwf. eexists. split; [apply (expand_spec env n w Hwf)|].
  fields. unfold content at 2, wf at 1. fields.
  rewrite take_0, app_nil_r, content_sealed, length_replicate by exact Hwf.
  repeat split; try lia; try discriminate.
  - intros Hp. unfold wf in Hwf. unfold sealed.
    destruct (buf w) as [b|]; [|lia]. exists b. split; [reflexivity|].
    destruct (Nat.ltb_spec 0 (pos w)); [reflexivity|lia].
  - intros Hp. unfold sealed. rewrite Hp.
    destruct (buf w); simpl; apply app_nil_r.
Qed.

Lemma expand_establishes_room_witness :
  exists w',
    expand (mkEnv 4 true) 7
      (mkWriter Writer_ (Some [10; 150; 1; 0]) 3 4 [[8]] [] (Some slice))
    = Return tt w' /\
    bufs w' = [[8]; [10; 150; 1]] /\
    buf w' = Some [0; 0; 0; 0; 0; 0; 0] /\
    pos w' = 0%nat /\ len w' = 7%nat.
Proof.
  destruct (expand_establishes_room (mkEnv 4 true)
              (mkWriter Writer_ (Some [10; 150; 1; 0]) 3 4 [[8]] [] (Some slice)) 7)
    as (w' & E & Hs & _ & Hb & Hp & Hl & _).
  - unfold wf; simpl. repeat split; [lia | discriminate].
  - exists w'. destruct (Hs ltac:(simpl; lia)) as (b & Eb & Ebs).
    simpl in Eb. injection Eb as <-.
    repeat split; assumption.
Defined.

(** C7 (zigzag law).  On 32-bit signed integers the map
    [v << 1 ^ v >> 31], read as the unsigned number [sint32] encodes, is a
    bijection onto the 32-bit unsigned integers: it lands in [0, 2^32),
    [unzigzag] undoes it, and it undoes [unzigzag] on every 32-bit
    unsigned number, so that it is one-to-one and onto; moreover
    zigzag(0) = 0, zigzag(-1) = 1 and zigzag(1) = 2. *)
Theorem zigzag_bijection (v u : Z) :
  int32 v -> uint32 u ->
  (uint32 (zigzag32 v) /\ unzigzag (zigzag32 v) = v) /\
  (int32 (unzigzag u) /\ zigzag32 (unzigzag u) = u) /\
  (forall v', int32 v' -> zigzag32 v = zigzag32 v' -> v = v') /\
  (exists v', int32 v' /\ zigzag32 v' = u) /\
  zigzag 0 = 0 /\ zigzag (-1) = 1 /\ zigzag 1 = 2.
Proof.
  intros Hv Hu.
  assert (Hz : forall x, int32 x -> uint32 (zigzag32 x) /\ unzigzag (zigzag32 x) = x).
  { intros x Hx. rewrite zigzag32_closed by exact Hx.
    unfold int32, JS.two31 in Hx.
    assert (Hr : uint32 (if 0 <=? x then 2 * x else - 2 * x - 1))
      by (unfold uint32, JS.two32; destruct (Z.leb_spec 0 x); lia).
    split; [exact Hr|]. rewrite unzigzag_closed by exact Hr.
    destruct (Z.leb_spec 0 x).
    - replace ((2 * x) mod 2) with 0 by (Z.to_euclidean_division_equations; lia).
      simpl. Z.to_euclidean_division_equations; lia.
    - replace ((- 2 * x - 1) mod 2) with 1
        by (Z.to_euclidean_division_equations; lia).
      simpl. Z.to_euclidean_division_equations; lia. }
  assert (Hu' : int32 (unzigzag u) /\ zigzag32 (unzigzag u) = u).
  { rewrite unzigzag_closed by exact Hu. unfold uint32, JS.two32 in Hu.
    pose proof (Z.mod_pos_bound u 2 ltac:(lia)) as Hm.
    destruct (Z.eqb_spec (u mod 2) 0) as [E|E].
    + assert (Hi : int32 (u / 2))
        by (unfold int32, JS.two31; Z.to_euclidean_division_equations; lia).
      split; [exact Hi|]. rewrite zigzag32_closed by exact Hi.
      destruct (Z.leb_spec 0 (u / 2));
        Z.to_euclidean_division_equations; lia.
    + assert (Hi : int32 (- (u / 2) - 1))
        by (unfold int32, JS.two31; Z.to_euclidean_division_equations; lia).
      split; [exact Hi|]. rewrite zigzag32_closed by exact Hi.
      destruct (Z.leb_spec 0 (- (u / 2) - 1));
        Z.to_euclidean_division_equations; lia. }
  split; [apply Hz, Hv|]. split; [exact Hu'|]. split; [|split].
  - intros v' Hv' E.
    rewrite <- (proj2 (Hz v Hv)), <- (proj2 (Hz v' Hv')), E. reflexivity.
  - exists (unzigzag u). exact Hu'.
  - repeat split; reflexivity.
Qed.

Lemma zigzag_bijection_witness :
  (uint32 (zigzag32 (-3)) /\ unzigzag (zigzag32 (-3)) = -3) /\
  (int32 (unzigzag 5) /\ zigzag32 (unzigzag 5) = 5) /\
  (forall v', int32 v' -> zigzag32 (-3) = zigzag32 v' -> -3 = v') /\
  (exists v', int32 v' /\ zigzag32 v' = 5) /\
  zigzag 0 = 0 /\ zigzag (-1) = 1 /\ zigzag 1 = 2.
Proof.
  apply (zigzag_bijection (-3) 5).
  - unfold int32, JS.two31. lia.
  - unfold uint32, JS.two32. lia.
Defined.

(** C8 fails as stated: the writer [inner_scope_unwritten] is reached by
    two calls, keeps the invariant and has an active buffer, yet [fork]
    leaves it as it is, at depth 1. *)
Lemma fork_noop_with_active_buffer :
  run (mkEnv 4 true) [Uint32 1; Fork] (new_ Writer_)
  = Return [] inner_scope_unwritten /\
  wf inner_scope_unwritten /\
  buf inner_scope_unwritten <> None /\
  fork inner_scope_unwritten = Return tt inner_scope_unwritten /\
  ~ fork_deepens inner_scope_unwritten.
Proof.
  split; [vm_compute; reflexivity|].
  split; [unfold wf; simpl; repeat split; [lia | discriminate]|].
  split; [discriminate|]. split; [reflexivity|].
  intros (w' & E & Hd & _). vm_compute in E. injection E as <-.
  simpl in Hd. lia.
Qed.

(** C8, amended.  On a writer that satisfies the data invariant, [fork]
    does nothing when the active buffer is absent or the position is 0.
    Otherwise it pushes exactly one saved chunk list, namely the chunks of
    the scope followed by the written prefix [buf[0:pos)], and the inner
    scope starts with an empty chunk list at position 0; when
    [pos < len] the rest of the same buffer becomes the active buffer of
    the inner scope, with capacity [len - pos], and when [pos = len] the
    inner scope starts with no active buffer and capacity 0. *)
Theorem fork_transitions (w : Writer) :
  wf w ->
  (buf w = None \/ pos w = 0%nat -> fork w = Return tt w) /\
  (forall b, buf w = Some b -> (0 < pos w)%nat ->
     exists w',
       fork w = Return tt w' /\ wf w' /\
       _stack w' = _stack w ++ [bufs w ++ [take (pos w) b]] /\
       length (_stack w') = S (length (_stack w)) /\
       bufs w' = [] /\ pos w' = 0%nat /\
       ((pos w < len w)%nat ->
          buf w' = Some (drop (pos w) b) /\ len w' = (len w - pos w)%nat) /\
       (pos w = len w -> buf w' = None /\ len w' = 0%nat)).
Proof.
  intros Hwf. split; [apply fork_noop|].
  intros b Hb Hp. eexists. split; [apply (fork_spec w b Hwf Hb Hp)|].
  unfold wf in *. rewrite Hb in Hwf. destruct Hwf as (Hlen & Hpos & Hsl). fields.
  split.
  { destruct (Nat.ltb_spec (pos w) (len w)).
    - rewrite length_drop. repeat split; try lia; assumption.
    - split; lia. }
  split; [reflexivity|]. split; [rewrite length_app; simpl; lia|].
  split; [reflexivity|]. split; [reflexivity|]. split.
  - intros Hc. destruct (Nat.ltb_spec (pos w) (len w)); [|lia]. split; reflexivity.
  - intros Hc. destruct (Nat.ltb_spec (pos w) (len w)); [lia|]. split; [reflexivity|lia].
Qed.

Lemma fork_transitions_witness :
  exists w',
    fork (mkWriter Writer_ (Some [1; 0; 0; 0]) 1 4 [] [] (Some slice))
    = Return tt w' /\
    _stack w' = [[[1]]] /\ bufs w' = [] /\ pos w' = 0%nat /\
    buf w' = Some [0; 0; 0] /\ len w' = 3%nat.
Proof.
  destruct (fork_transitions
              (mkWriter Writer_ (Some [1; 0; 0; 0]) 1 4 [] [] (Some slice)))
    as [_ H].
  - unfold wf; simpl. repeat split; [lia | discriminate].
  - destruct (H [1; 0; 0; 0] eq_refl ltac:(simpl; lia))
      as (w' & E & _ & Hs & _ & Hb & Hp & Hlt & _).
    destruct (Hlt ltac:(simpl; lia)) as [Hbuf Hlen].
    exists w'. repeat split; assumption.
Defined.

(** C9 (chunk-size independence).  For a script of write calls on a new
    writer of either class, closed by [finish()], what the caller sees is
    the same under any two settings with a positive [BUFFER_SIZE]; when
    the script has at least one write it is the encodings of the writes in
    order. *)
Theorem chunk_size_independence (env1 env2 : Env) (k : species) (ws : list call) :
  forallb is_write ws = true ->
  (0 < BUFFER_SIZE env1)%nat -> (0 < BUFFER_SIZE env2)%nat ->
  observe (run env1 (ws ++ [Finish false]) (new_ k))
  = observe (run env2 (ws ++ [Finish false]) (new_ k)) /\
  (ws <> [] ->
   observe (run env1 (ws ++ [Finish false]) (new_ k))
   = Ok [Some (concat (map encode ws))]).
Proof.
  intros Hws _ _. destruct ws as [|c ws].
  - split; [|congruence]. destruct k; reflexivity.
  - rewrite !run_writes_finish by (assumption || discriminate).
    split; reflexivity.
Qed.

Lemma chunk_size_independence_witness :
  observe (run (mkEnv 1 true) ([Tag 1 2; Uint32 150; Bytes [170; 187]] ++ [Finish false])
             (new_ Writer_))
  = observe (run (mkEnv 1024 false) ([Tag 1 2; Uint32 150; Bytes [170; 187]] ++ [Finish false])
               (new_ Writer_)) /\
  ([Tag 1 2; Uint32 150; Bytes [170; 187]] <> [] ->
   observe (run (mkEnv 1 true) ([Tag 1 2; Uint32 150; Bytes [170; 187]] ++ [Finish false])
              (new_ Writer_))
   = Ok [Some (concat (map encode [Tag 1 2; Uint32 150; Bytes [170; 187]]))]).
Proof.
  apply (chunk_size_independence (mkEnv 1 true) (mkEnv 1024 false) Writer_
           [Tag 1 2; Uint32 150; Bytes [170; 187]]).
  - reflexivity.
  - simpl. lia.
  - simpl. lia.
Defined.

(** C10 (coercion to unsigned 32 bits).  [int32] is the function [uint32];
    for every integer input the call encodes the input modulo 2^32: the
    octets added decode to a value in [0, 2^32) and are at most 5; and
    [int32(-1)] adds the 5 octets of 4294967295. *)
Theorem uint32_encodes_value_modulo_two32 (env : Env) (w : Writer) (v : Z) :
  wf w ->
  write_int32 = write_uint32 /\
  (exists w' bs,
     write_uint32 env v w = Return tt w' /\
     content w' = content w ++ bs /\
     bs = varint (v mod JS.two32) /\
     le128 bs = v mod JS.two32 /\
     0 <= le128 bs < JS.two32 /\
     (length bs <= 5)%nat /\
     continued bs) /\
  (exists w',
     write_int32 env (-1) w = Return tt w' /\
     content w' = content w ++ [255; 255; 255; 255; 15] /\
     le128 [255; 255; 255; 255; 15] = 4294967295).
Proof.
  intros Hwf. split; [reflexivity|]. split.
  - destruct (appends_uint32 env v w Hwf) as (w' & E & _ & C & _ & _).
    rewrite shr_0 in C. pose proof (to_uint32_range v) as Hr.
    unfold JS.to_uint32 in *.
    exists w', (varint (v mod JS.two32)).
    split; [exact E|]. split; [exact C|]. split; [reflexivity|].
    rewrite le128_varint by exact Hr.
    split; [reflexivity|]. split; [exact Hr|].
    split; [|apply continued_varint; exact Hr].
    rewrite length_varint by exact Hr. unfold uint32_len.
    repeat match goal with
           | |- context [?a <? ?b] => destruct (Z.ltb_spec a b)
           end; lia.
  - destruct (appends_uint32 env (-1) w Hwf) as (w' & E & _ & C & _ & _).
    exists w'. split; [exact E|]. split; [exact C|]. reflexivity.
Qed.

Lemma uint32_encodes_value_modulo_two32_witness :
  write_int32 = write_uint32 /\
  (exists w' bs,
     write_uint32 env0 (-1) (new_ Writer_) = Return tt w' /\
     content w' = content (new_ Writer_) ++ bs /\
     bs = varint ((-1) mod JS.two32) /\
     le128 bs = (-1) mod JS.two32 /\
     0 <= le128 bs < JS.two32 /\
     (length bs <= 5)%nat /\
     continued bs) /\
  (exists w',
     write_int32 env0 (-1) (new_ Writer_) = Return tt w' /\
     content w' = content (new_ Writer_) ++ [255; 255; 255; 255; 15] /\
     le128 [255; 255; 255; 255; 15] = 4294967295).
Proof.
  apply (uint32_encodes_value_modulo_two32 env0 (new_ Writer_) (-1)).
  split; reflexivity.
Defined.

(** * Further properties of the writer *)

(** ** The tag octet *)

Lemma to_int32_mod8 (v : Z) : JS.to_int32 v mod 8 = v mod 8.
Proof.
  rewrite <- (Z.mod_mod_divide (JS.to_int32 v) 256 8) by (exists 32; reflexivity).
  rewrite to_int32_mod256. apply Z.mod_mod_divide. exists 32. reflexivity.
Qed.

Lemma lor_high5_low3 (r : Z) :
  0 <= r < 256 -> Z.lor (8 * (r / 8)) (r mod 8) = r.
Proof.
  intros H. apply Z.eqb_eq.
  apply (Z_below_forallb (fun r => Z.lor (8 * (r / 8)) (r mod 8) =? r) 256);
    [vm_compute; reflexivity | exact H].
Qed.

(** The octet [id << 3 | wireType & 7] leaves in the buffer. *)
Lemma tag_octet (id wt : Z) :
  JS.to_uint8 (JS.bor (JS.shl id 3) (JS.band wt 7)) = (8 * id + wt mod 8) mod 256.
Proof.
  unfold JS.to_uint8, JS.bor.
  change 256 with (2 ^ 8). rewrite <- Z.land_ones by lia.
  rewrite Z.land_lor_distr_l, !Z.land_ones by lia. change (2 ^ 8) with 256.
  rewrite !to_int32_mod256.
  assert (Hs : JS.shl id 3 mod 256 = (8 * id) mod 256).
  { unfold JS.shl. change (Z.land (JS.to_uint32 3) 31) with 3.
    rewrite to_int32_mod256, Z.shiftl_mul_pow2 by lia. change (2 ^ 3) with 8.
    rewrite Z.mul_mod, to_int32_mod256, <- Z.mul_mod by lia.
    f_equal. lia. }
  assert (Hb : JS.band wt 7 mod 256 = wt mod 8).
  { unfold JS.band. change (JS.to_int32 7) with (Z.ones 3).
    rewrite Z.land_ones by lia. change (2 ^ 3) with 8.
    rewrite to_int32_mod8. apply Z.mod_small.
    pose proof (Z.mod_pos_bound wt 8 ltac:(lia)). lia. }
  rewrite Hs, Hb.
  pose proof (Z.mod_pos_bound wt 8 ltac:(lia)) as Hw.
  set (b := wt mod 8) in *. clearbody b.
  assert (Hr : 0 <= (8 * id + b) mod 256 < 256) by (apply Z.mod_pos_bound; lia).
  rewrite <- (lor_high5_low3 ((8 * id + b) mod 256)) by exact Hr.
  f_equal; Z.to_euclidean_division_equations; lia.
Qed.

Lemma store_same_octet (x y : Z) (w : Writer) :
  JS.to_uint8 x = JS.to_uint8 y -> store x w = store y w.
Proof. intros E. unfold store. run_m. rewrite E. reflexivity. Qed.

(** X1.  [tag] adds one octet, the low eight bits of
    [8 * id + wireType mod 8]: a field number below 32 with a wire type
    below 8 is written as it is, and field numbers 32 apart leave the
    writer in the same state. *)
Theorem tag_writes_low_octet (env : Env) (w : Writer) (id wt : Z) :
  wf w ->
  (exists w', write_tag env id wt w = Return tt w' /\
              content w' = content w ++ [(8 * id + wt mod 8) mod 256]) /\
  (0 <= id < 32 -> 0 <= wt < 8 ->
   (8 * id + wt mod 8) mod 256 = 8 * id + wt) /\
  write_tag env (id + 32) wt w = write_tag env id wt w.
Proof.
  intros Hwf. split; [|split].
  - destruct (appends_tag env id wt w Hwf) as (w' & E & _ & C & _).
    exists w'. split; [exact E|]. rewrite C. simpl. rewrite tag_octet.
    reflexivity.
  - intros Hi Hw. rewrite (Z.mod_small wt 8) by lia. apply Z.mod_small. lia.
  - unfold write_tag, bind. destruct (reserve env 1 w) as [[] w1|e]; [|reflexivity].
    apply store_same_octet. rewrite !tag_octet.
    replace (8 * (id + 32) + wt mod 8) with (8 * id + wt mod 8 + 1 * 256) by lia.
    apply Z.mod_add. lia.
Qed.

Lemma tag_writes_low_octet_witness :
  (exists w', write_tag env0 1 2 (new_ Writer_) = Return tt w' /\
              content w' = content (new_ Writer_) ++ [10]) /\
  (0 <= 1 < 32 -> 0 <= 2 < 8 -> (8 * 1 + 2 mod 8) mod 256 = 8 * 1 + 2) /\
  write_tag env0 (1 + 32) 2 (new_ Writer_) = write_tag env0 1 2 (new_ Writer_).
Proof.
  apply (tag_writes_low_octet env0 (new_ Writer_) 1 2).
  split; reflexivity.
Defined.

(** ** Fixed-width integers *)

Lemma fixed32_bytes_value (v : Z) :
  length (fixed32_bytes v) = 4%nat /\ le256 (fixed32_bytes v) = v mod JS.two32.
Proof.
  split; [reflexivity|].
  unfold fixed32_bytes. rewrite shr_0.
  pose proof (to_uint32_range v) as Hu. unfold JS.to_uint32 in *.
  set (u := v mod JS.two32) in *. clearbody u. unfold JS.two32 in Hu.
  unfold JS.shr. rewrite to_uint32_small by (unfold JS.two32; lia).
  change (Z.land (JS.to_uint32 8) 31) with 8.
  change (Z.land (JS.to_uint32 16) 31) with 16.
  change (Z.land (JS.to_uint32 24) 31) with 24.
  rewrite !Z.shiftr_div_pow2 by lia.
  change (2 ^ 8) with 256. change (2 ^ 16) with (256 * 256).
  change (2 ^ 24) with (256 * 256 * 256).
  rewrite <- !Z.div_div by lia.
  unfold JS.to_uint8. cbn [map le256].
  pose proof (Z.div_mod u 256 ltac:(lia)) as E0.
  pose proof (Z.mod_pos_bound u 256 ltac:(lia)) as B0.
  set (q1 := u / 256) in *. set (r0 := u mod 256) in *. clearbody q1 r0.
  pose proof (Z.div_mod q1 256 ltac:(lia)) as E1.
  pose proof (Z.mod_pos_bound q1 256 ltac:(lia)) as B1.
  set (q2 := q1 / 256) in *. set (r1 := q1 mod 256) in *. clearbody q2 r1.
  pose proof (Z.div_mod q2 256 ltac:(lia)) as E2.
  pose proof (Z.mod_pos_bound q2 256 ltac:(lia)) as B2.
  set (q3 := q2 / 256) in *. set (r2 := q2 mod 256) in *. clearbody q3 r2.
  rewrite (Z.mod_small q3 256) by lia. lia.
Qed.

(** X2.  [fixed32] adds four octets, least significant first, that stand
    for the argument modulo 2^32. *)
Theorem fixed32_little_endian (env : Env) (w : Writer) (v : Z) :
  wf w ->
  exists w' bs,
    write_fixed32 env v w = Return tt w' /\
    content w' = content w ++ bs /\
    length bs = 4%nat /\ Forall octet bs /\
    le256 bs = v mod JS.two32.
Proof.
  intros Hwf. destruct (appends_fixed32 env v w Hwf) as (w' & E & _ & C & _).
  exists w', (fixed32_bytes v).
  split; [exact E|]. split; [exact C|].
  destruct (fixed32_bytes_value v) as [Hl Hv].
  split; [exact Hl|]. split; [apply Forall_octet_map | exact Hv].
Qed.

Lemma fixed32_little_endian_witness :
  exists w' bs,
    write_fixed32 env0 (-2) (new_ Writer_) = Return tt w' /\
    content w' = content (new_ Writer_) ++ bs /\
    length bs = 4%nat /\ Forall octet bs /\
    le256 bs = (-2) mod JS.two32.
Proof.
  apply (fixed32_little_endian env0 (new_ Writer_) (-2)).
  split; reflexivity.
Defined.



(** X4.  [sint32] writes the varint of the zigzag image: for a 32-bit
    signed [v] it adds octets, between 0 and 255, with the continuation
    bit on all but the last, that decode to [2v] or [-2v - 1], and there
    is exactly one of them precisely when [-64 <= v <= 63]. *)
Theorem sint32_small_values_one_octet (env : Env) (w : Writer) (v : Z) :
  wf w -> int32 v ->
  exists w' bs,
    write_sint32 env v w = Return tt w' /\
    content w' = content w ++ bs /\
    Forall octet bs /\
    continued bs /\
    le128 bs = (if 0 <=? v then 2 * v else - 2 * v - 1) /\
    (length bs = 1%nat <-> -64 <= v <= 63).
Proof.
  intros Hwf Hv.
  destruct (appends_uint32 env (zigzag v) w Hwf) as (w' & E & _ & C & _).
  change (JS.shr (zigzag v) 0) with (zigzag32 v) in C.
  pose proof (zigzag32_closed v Hv) as Hz.
  assert (Hu : uint32 (zigzag32 v)).
  { unfold zigzag32. rewrite shr_0. apply to_uint32_range. }
  exists w', (varint (zigzag32 v)).
  split; [exact E|]. split; [exact C|].
  split; [apply varint_octets|].
  split; [apply continued_varint; exact Hu|].
  split; [rewrite le128_varint by exact Hu; exact Hz|].
  rewrite length_varint by exact Hu. rewrite Hz. unfold uint32_len.
  unfold int32, JS.two31 in Hv.
  destruct (Z.leb_spec 0 v);
    repeat match goal with
           | |- context [?a <? ?b] => destruct (Z.ltb_spec a b)
           end; split; intros; try lia; try discriminate.
Qed.

Lemma sint32_small_values_one_octet_witness :
  exists w' bs,
    write_sint32 env0 (-64) (new_ Writer_) = Return tt w' /\
    content w' = content (new_ Writer_) ++ bs /\
    Forall octet bs /\
    continued bs /\
    le128 bs = 127 /\
    (length bs = 1%nat <-> -64 <= -64 <= 63).
Proof.
  apply (sint32_small_values_one_octet env0 (new_ Writer_) (-64)).
  - split; reflexivity.
  - unfold int32, JS.two31. lia.
Defined.

(** ** Varints delimit themselves *)

Lemma varint_prefix_free (a : Z) :
  0 <= a ->
  forall b r1 r2, uint32 a -> uint32 b ->
    varint a ++ r1 = varint b ++ r2 -> a = b /\ r1 = r2.
Proof.
  intros Ha. pattern a. apply Zlt_0_ind; [|exact Ha]. clear a Ha.
  intros a IH Ha b r1 r2 Hua Hub E.
  unfold uint32, JS.two32 in *.
  rewrite (varint_step32 a), (varint_step32 b) in E by (unfold JS.two32; lia).
  pose proof (Z.mod_pos_bound a 128 ltac:(lia)) as Ma.
  pose proof (Z.mod_pos_bound b 128 ltac:(lia)) as Mb.
  destruct (Z.ltb_spec 127 a) as [Ca|Ca], (Z.ltb_spec 127 b) as [Cb|Cb];
    simpl in E; injection E as E0 E1.
  - pose proof (div128_bounds a ltac:(lia)) as Da.
    pose proof (div128_bounds b ltac:(lia)) as Db.
    destruct (IH (a / 128) ltac:(lia) (b / 128) r1 r2) as [Eq Er];
      [lia | lia | exact E1 |].
    split; [|exact Er].
    rewrite (Z.div_mod a 128), (Z.div_mod b 128) by lia. lia.
  - lia.
  - lia.
  - split; assumption.
Qed.

(** ** Scripts from any state *)

Lemma run_writes_live (env : Env) (ws : list call) :
  forallb is_write ws = true -> ws <> [] ->
  forall w, wf w ->
    exists w', run env ws w = Return [] w' /\ wf w' /\
               content w' = content w ++ concat (map encode ws) /\
               frame w w' /\ buf w' <> None /\ (0 < pos w')%nat.
Proof.
  induction ws as [|c ws IH]; intros Hws Hne w Hwf; [congruence|].
  simpl in Hws. apply andb_true_iff in Hws. destruct Hws as [Hc Hws].
  destruct (invoke_write env c w Hc Hwf) as (w1 & E1 & Hwf1 & C1 & F1 & N1 & P1).
  destruct ws as [|c' ws].
  - exists w1. rewrite run_cons, E1. simpl. rewrite app_nil_r. auto 7.
  - destruct (IH Hws ltac:(discriminate) w1 Hwf1)
      as (w2 & E2 & Hwf2 & C2 & F2 & N2 & P2).
    exists w2. rewrite run_cons, E1, E2.
    split; [reflexivity|]. split; [assumption|].
    split; [rewrite C2, C1, <- app_assoc; reflexivity|].
    split; [apply (frame_trans _ _ _ F1 F2) | auto].
Qed.

Lemma invoke_reset (env : Env) (c : bool) (w : Writer) :
  invoke env (Reset c) w = Return None (after_reset c w).
Proof.
  unfold invoke. rewrite bind_get. unfold bind. rewrite reset_spec. reflexivity.
Qed.

Lemma invoke_finish_live (env : Env) (c : bool) (w : Writer) :
  wf w -> buf w <> None ->
  invoke env (Finish c) w = Return (Some (Some (content w))) (after_reset c w).
Proof.
  intros Hwf Hb. rewrite invoke_finish.
  destruct (constructor_ w);
    [rewrite finish_spec | rewrite finish_buffer_spec]; auto.
Qed.

Lemma run_writes_then_finish (env : Env) (c : bool) (ws : list call) (w : Writer) :
  forallb is_write ws = true -> wf w -> ws <> [] \/ buf w <> None ->
  exists w1, run env ws w = Return [] w1 /\ wf w1 /\ frame w w1 /\
             run env (ws ++ [Finish c]) w
             = Return [Some (content w ++ concat (map encode ws))]
                      (after_reset c w1).
Proof.
  intros Hws Hwf Hlive.
  destruct (run_writes env ws w Hws Hwf) as (w1 & E1 & Hwf1 & C1 & F1 & N1).
  assert (Hb1 : buf w1 <> None).
  { destruct Hlive as [Hne|Hb]; [exact (N1 Hne) | exact (frame_live _ _ F1 Hb)]. }
  exists w1. split; [exact E1|]. split; [exact Hwf1|]. split; [exact F1|].
  rewrite run_app, E1, run_cons, (invoke_finish_live env c w1 Hwf1 Hb1), C1.
  reflexivity.
Qed.

Lemma after_reset_flat (c : bool) (w : Writer) :
  _stack w = [] ->
  after_reset c w = mkWriter (constructor_ w) None 0 0 [] [] (_slice w).
Proof. intros E. unfold after_reset. rewrite E. reflexivity. Qed.

Lemma after_reset_pop (w : Writer) (st : list (list bytes)) (top : list bytes) :
  _stack w = st ++ [top] ->
  after_reset false w = mkWriter (constructor_ w) None 0 0 top st (_slice w).
Proof. intros E. unfold after_reset. rewrite E, pop_snoc. reflexivity. Qed.

Lemma content_forked (w : Writer) (b : bytes) :
  content (mkWriter (constructor_ w)
             (if (pos w <? len w)%nat then Some (drop (pos w) b) else None)
             0 (len w - pos w) [] (_stack w ++ [bufs w ++ [take (pos w) b]])
             (_slice w)) = [].
Proof. unfold content. fields. destruct (pos w <? len w)%nat; reflexivity. Qed.

Lemma content_snoc_prefix (w : Writer) (b : bytes) :
  buf w = Some b -> concat (bufs w ++ [take (pos w) b]) = content w.
Proof.
  intros Eb. unfold content. rewrite Eb, concat_app. simpl.
  rewrite app_nil_r. reflexivity.
Qed.

(** An inner scope opened on written bytes and closed by [finish()]. *)
Lemma scope_finish (env : Env) (w : Writer) (b : bytes) (ws : list call) :
  wf w -> buf w = Some b -> (0 < pos w)%nat ->
  forallb is_write ws = true -> ws <> [] ->
  exists sl,
    run env (Fork :: ws ++ [Finish false]) w
    = Return [Some (concat (map encode ws))]
        (mkWriter (constructor_ w) None 0 0
           (bufs w ++ [take (pos w) b]) (_stack w) sl).
Proof.
  intros Hwf Eb Hp Hws Hne.
  pose proof (wf_forked w b Hwf Eb) as Hwf2.
  pose proof (content_forked w b) as C2.
  set (w2 := mkWriter _ _ _ _ _ _ _) in Hwf2, C2.
  destruct (run_writes_then_finish env false ws w2 Hws Hwf2 (or_introl Hne))
    as (w3 & _ & _ & (S3 & K3 & _) & E3).
  rewrite run_cons, invoke_fork, (fork_spec w b Hwf Eb Hp).
  fold w2. cbv beta iota. rewrite E3, C2.
  rewrite (after_reset_pop w3 (_stack w) (bufs w ++ [take (pos w) b])) by exact S3.
  rewrite K3. exists (_slice w3). reflexivity.
Qed.

(** An inner scope opened on written bytes and dropped by [reset()]. *)
Lemma scope_reset (env : Env) (w : Writer) (b : bytes) (ws : list call) :
  wf w -> buf w = Some b -> (0 < pos w)%nat ->
  forallb is_write ws = true ->
  exists sl,
    run env (Fork :: ws ++ [Reset false]) w
    = Return []
        (mkWriter (constructor_ w) None 0 0
           (bufs w ++ [take (pos w) b]) (_stack w) sl).
Proof.
  intros Hwf Eb Hp Hws.
  pose proof (wf_forked w b Hwf Eb) as Hwf2.
  set (w2 := mkWriter _ _ _ _ _ _ _) in Hwf2.
  destruct (run_writes env ws w2 Hws Hwf2) as (w3 & E3 & _ & _ & (S3 & K3 & _) & _).
  rewrite run_cons, invoke_fork, (fork_spec w b Hwf Eb Hp).
  fold w2. cbv beta iota. rewrite run_app, E3, run_cons, invoke_reset.
  rewrite (after_reset_pop w3 (_stack w) (bufs w ++ [take (pos w) b])) by exact S3.
  rewrite K3. exists (_slice w3). reflexivity.
Qed.

(** X5.  The first varint of a message delimits itself: when two scripts
    that start with [uint32(a)] and [uint32(b)], with 32-bit unsigned
    arguments, and go on with writes hand back the same bytes, then
    [a = b] and the bytes of the writes that follow are the same. *)
Theorem first_varint_delimits_itself (env : Env) (k : species) (a b : Z)
    (ws1 ws2 : list call) :
  uint32 a -> uint32 b ->
  forallb is_write ws1 = true -> forallb is_write ws2 = true ->
  observe (run env (Uint32 a :: ws1 ++ [Finish false]) (new_ k))
  = observe (run env (Uint32 b :: ws2 ++ [Finish false]) (new_ k)) ->
  a = b /\ concat (map encode ws1) = concat (map encode ws2).
Proof.
  intros Ha Hb H1 H2 E.
  change (Uint32 a :: ws1 ++ [Finish false])
    with ((Uint32 a :: ws1) ++ [Finish false]) in E.
  change (Uint32 b :: ws2 ++ [Finish false])
    with ((Uint32 b :: ws2) ++ [Finish false]) in E.
  rewrite !run_writes_finish in E by (simpl; assumption || discriminate).
  injection E as E. cbn [map concat encode] in E.
  rewrite !shr_0, !to_uint32_small in E by assumption.
  apply (varint_prefix_free a (proj1 Ha) b _ _ Ha Hb E).
Qed.

Lemma first_varint_delimits_itself_witness :
  300 = 300 /\ concat (map encode [Bool_ true]) = concat (map encode [Bool_ true]).
Proof.
  apply (first_varint_delimits_itself env0 Writer_ 300 300 [Bool_ true] [Bool_ true]).
  - unfold uint32, JS.two32. lia.
  - unfold uint32, JS.two32. lia.
  - reflexivity.
  - reflexivity.
  - reflexivity.
Defined.

(** ** [bytes] on the two classes *)

Lemma set_copy_agree (value : list Z) (w : Writer) :
  wf w -> buf w <> None -> (pos w + length value <= len w)%nat ->
  copy_and_advance value w = set_and_advance value w.
Proof.
  destruct w as [k0 [b|] p l bs st sl]; unfold wf; fields; [|congruence].
  intros (Hl & _ & _) _ Hroom.
  unfold copy_and_advance, set_and_advance, buffer_copy, typed_set. run_m.
  rewrite length_map.
  destruct (Nat.ltb_spec (length b) (p + length value)); [lia | reflexivity].
Qed.

(** X6.  The node-buffer override of [bytes] is the same function as the
    typed-array one: on every writer that satisfies the data invariant the
    two return the same writer. *)
Theorem bytes_override_agrees (env : Env) (w : Writer) (value : list Z) :
  wf w -> write_bytes_buffer env value w = write_bytes env value w.
Proof.
  intros Hwf. unfold write_bytes_buffer, write_bytes. unfold bind at 1 3.
  destruct (appends_uint32 env (Z.of_nat (length value)) w Hwf)
    as (w1 & E1 & Hwf1 & _ & _ & N1).
  destruct (N1 (varint_nonempty _)) as [Hb1 _]. rewrite E1.
  destruct (reserve_spec env (length value) w1 Hwf1)
    as (w2 & E2 & Hwf2 & _ & R2 & F2 & Z2).
  unfold bind. rewrite E2.
  destruct value as [|x value].
  - rewrite (Z2 eq_refl). clear E2 E1.
    destruct w1 as [k0 [b|] p l bs st sl]; fields; [|congruence].
    unfold copy_and_advance, buffer_copy. run_m. cbn [length list_inserts].
    rewrite Nat.add_0_r. reflexivity.
  - change (0 <? length (x :: value))%nat with true. unfold when_. rewrite E2.
    apply set_copy_agree; [exact Hwf2 | exact (frame_live _ _ F2 Hb1) | exact R2].
Qed.

Lemma bytes_override_agrees_witness :
  write_bytes_buffer env0 [170; 187] (new_ BufferWriter_)
  = write_bytes env0 [170; 187] (new_ BufferWriter_).
Proof.
  apply (bytes_override_agrees env0 (new_ BufferWriter_) [170; 187]).
  split; reflexivity.
Defined.

(** X7.  [bytes] writes a length-delimited run on either class: a varint
    made of octets, between 0 and 255, that decodes to the number of
    elements, then the elements as octets; an empty array is written as
    the single octet 0. *)
Theorem bytes_length_delimited (env : Env) (w : Writer) (value : list Z) :
  wf w -> Z.of_nat (length value) < JS.two32 ->
  exists w' p,
    invoke env (Bytes value) w = Return None w' /\
    content w' = content w ++ p ++ map JS.to_uint8 value /\
    Forall octet p /\ Forall octet (map JS.to_uint8 value) /\
    continued p /\ le128 p = Z.of_nat (length value) /\
    (value = [] -> content w' = content w ++ [0]).
Proof.
  intros Hwf Hn.
  destruct (invoke_write env (Bytes value) w eq_refl Hwf) as (w' & E & _ & C & _).
  assert (Hu : uint32 (Z.of_nat (length value))) by (unfold uint32; lia).
  cbn [encode] in C. rewrite shr_0, to_uint32_small in C by exact Hu.
  exists w', (varint (Z.of_nat (length value))).
  split; [exact E|]. split; [exact C|].
  split; [apply varint_octets|]. split; [apply Forall_octet_map|].
  split; [apply continued_varint; exact Hu|].
  split; [apply le128_varint; exact Hu|].
  intros ->. rewrite C. reflexivity.
Qed.

Lemma bytes_length_delimited_witness :
  exists w' p,
    invoke env0 (Bytes [170; 187]) (new_ Writer_) = Return None w' /\
    content w' = content (new_ Writer_) ++ p ++ map JS.to_uint8 [170; 187] /\
    Forall octet p /\ Forall octet (map JS.to_uint8 [170; 187]) /\
    continued p /\ le128 p = 2 /\
    ([170; 187] = [] -> content w' = content (new_ Writer_) ++ [0]).
Proof.
  apply (bytes_length_delimited env0 (new_ Writer_) [170; 187]).
  - split; reflexivity.
  - unfold JS.two32. simpl. lia.
Defined.

(** ** Scopes *)

(** X8.  Fork isolation at any depth: on a writer with written bytes in
    its active buffer, [fork()], a non-empty script of writes and
    [finish()] hand back exactly the bytes of those writes, and leave the
    writer in the scope it was in, at the same depth, with the same bytes
    (now all in sealed chunks) and no active buffer. *)
Theorem submessage_scope_isolated (env : Env) (w : Writer) (b : bytes)
    (ws : list call) :
  wf w -> buf w = Some b -> (0 < pos w)%nat ->
  forallb is_write ws = true -> ws <> [] ->
  exists w',
    run env (Fork :: ws ++ [Finish false]) w
    = Return [Some (concat (map encode ws))] w' /\
    wf w' /\ buf w' = None /\ content w' = content w /\
    concat (bufs w') = content w /\
    _stack w' = _stack w /\ constructor_ w' = constructor_ w.
Proof.
  intros Hwf Eb Hp Hws Hne.
  destruct (scope_finish env w b ws Hwf Eb Hp Hws Hne) as (sl & E).
  eexists. split; [exact E|]. unfold wf, content. fields.
  rewrite app_nil_r, (content_snoc_prefix w b Eb).
  repeat split; reflexivity.
Qed.

Lemma submessage_scope_isolated_witness :
  exists w',
    run (mkEnv 4 true) (Fork :: [Uint32 300] ++ [Finish false])
      (mkWriter Writer_ (Some [8; 0; 0; 0]) 1 4 [] [[[7]]] (Some slice))
    = Return [Some (concat (map encode [Uint32 300]))] w' /\
    wf w' /\ buf w' = None /\
    content w' = content (mkWriter Writer_ (Some [8; 0; 0; 0]) 1 4 [] [[[7]]] (Some slice)) /\
    concat (bufs w') = content (mkWriter Writer_ (Some [8; 0; 0; 0]) 1 4 [] [[[7]]] (Some slice)) /\
    _stack w' = [[[7]]] /\ constructor_ w' = Writer_.
Proof.
  apply (submessage_scope_isolated (mkEnv 4 true)
           (mkWriter Writer_ (Some [8; 0; 0; 0]) 1 4 [] [[[7]]] (Some slice))
           [8; 0; 0; 0] [Uint32 300]).
  - unfold wf; simpl. repeat split; [lia | discriminate].
  - reflexivity.
  - simpl. lia.
  - reflexivity.
  - discriminate.
Defined.

(** X9.  The submessage pattern composes: after a non-empty script of
    writes, a forked non-empty script closed by [finish()] hands back the
    bytes [sub] of the inner writes, and writing [bytes(sub)] and calling
    [finish()] then hands back the bytes of the outer writes followed by
    the varint of the length of [sub] and by [sub] itself, on either
    class. *)
Theorem submessage_pattern_composes (env : Env) (k : species)
    (ws0 ws : list call) :
  forallb is_write ws0 = true -> ws0 <> [] ->
  forallb is_write ws = true -> ws <> [] ->
  observe (run env (ws0 ++ (Fork :: ws ++ [Finish false])
                        ++ [Bytes (concat (map encode ws))] ++ [Finish false])
             (new_ k))
  = Ok [Some (concat (map encode ws));
        Some (concat (map encode ws0)
              ++ varint (JS.shr (Z.of_nat (length (concat (map encode ws)))) 0)
              ++ concat (map encode ws))].
Proof.
  intros H0 N0 Hws Hne.
  destruct (run_writes_live env ws0 H0 N0 (new_ k) (wf_new k))
    as (w1 & E1 & Hwf1 & C1 & _ & Hb1 & Hp1).
  destruct (buf w1) as [b|] eqn:Eb; [clear Hb1|congruence].
  destruct (scope_finish env w1 b ws Hwf1 Eb Hp1 Hws Hne) as (sl & E2).
  set (w2 := mkWriter _ _ _ _ _ _ _) in E2.
  assert (Hwf2 : wf w2) by (split; reflexivity).
  assert (C2 : content w2 = concat (map encode ws0)).
  { unfold content, w2. fields.
    rewrite app_nil_r, (content_snoc_prefix w1 b Eb). exact C1. }
  pose proof (encodes_octets ws) as Ho.
  set (sub := concat (map encode ws)) in *. clearbody sub.
  assert (Hw : forallb is_write [Bytes sub] = true) by reflexivity.
  assert (Hn : [Bytes sub] <> []) by discriminate.
  destruct (run_writes_then_finish env false [Bytes sub] w2 Hw Hwf2 (or_introl Hn))
    as (w3 & _ & _ & _ & E3).
  rewrite run_app, E1, run_app, E2, E3, C2.
  cbn [observe app map concat encode].
  rewrite (map_to_uint8_octets _ Ho), app_nil_r.
  reflexivity.
Qed.

Lemma submessage_pattern_composes_witness :
  observe (run env0 ([Tag 1 0; Uint32 150]
                     ++ (Fork :: [Tag 1 0; Uint32 7] ++ [Finish false])
                     ++ [Bytes (concat (map encode [Tag 1 0; Uint32 7]))]
                     ++ [Finish false])
             (new_ Writer_))
  = Ok [Some (concat (map encode [Tag 1 0; Uint32 7]));
        Some (concat (map encode [Tag 1 0; Uint32 150])
              ++ varint (JS.shr (Z.of_nat (length (concat (map encode [Tag 1 0; Uint32 7])))) 0)
              ++ concat (map encode [Tag 1 0; Uint32 7]))].
Proof.
  apply (submessage_pattern_composes env0 Writer_
           [Tag 1 0; Uint32 150] [Tag 1 0; Uint32 7]).
  - reflexivity.
  - discriminate.
  - reflexivity.
  - discriminate.
Defined.

(** X10.  A writer is reusable after [finish]: on a new writer of either
    class, a non-empty script of writes closed by [finish], followed by
    another one, hands back the bytes of the first script and then the
    bytes of the second alone. *)
Theorem writer_reusable_after_finish (env : Env) (k : species) (c : bool)
    (ws1 ws2 : list call) :
  forallb is_write ws1 = true -> ws1 <> [] ->
  forallb is_write ws2 = true -> ws2 <> [] ->
  observe (run env ((ws1 ++ [Finish c]) ++ ws2 ++ [Finish false]) (new_ k))
  = Ok [Some (concat (map encode ws1)); Some (concat (map encode ws2))].
Proof.
  intros H1 N1 H2 N2.
  destruct (run_writes_then_finish env c ws1 (new_ k) H1 (wf_new k) (or_introl N1))
    as (w1 & _ & _ & (S1 & K1 & _) & E1).
  rewrite (after_reset_flat c w1 S1) in E1.
  set (w2 := mkWriter _ _ _ _ _ _ _) in E1.
  assert (Hwf2 : wf w2) by (split; reflexivity).
  destruct (run_writes_then_finish env false ws2 w2 H2 Hwf2 (or_introl N2))
    as (w3 & _ & _ & _ & E2).
  rewrite run_app, E1, E2. reflexivity.
Qed.

Lemma writer_reusable_after_finish_witness :
  observe (run env0 (([Uint32 1] ++ [Finish true]) ++ [Uint32 2] ++ [Finish false])
             (new_ BufferWriter_))
  = Ok [Some (concat (map encode [Uint32 1])); Some (concat (map encode [Uint32 2]))].
Proof.
  apply (writer_reusable_after_finish env0 BufferWriter_ true [Uint32 1] [Uint32 2]).
  - reflexivity.
  - discriminate.
  - reflexivity.
  - discriminate.
Defined.

(** X11.  In every state a script of calls reaches from a new writer the
    data invariant holds, and every write call returns normally: it adds
    its encoding to the open scope, keeps the invariant and leaves the
    fork stack as it is. *)
Theorem writes_return_in_every_reachable_state (env : Env) (k : species)
    (cs : list call) (rs : list (option bytes)) (w : Writer) (c : call) :
  run env cs (new_ k) = Return rs w -> is_write c = true ->
  wf w /\
  exists w', invoke env c w = Return None w' /\ wf w' /\
             content w' = content w ++ encode c /\
             _stack w' = _stack w.
Proof.
  intros Hrun Hc. pose proof (reachable_wf env k cs w rs Hrun) as Hwf.
  split; [exact Hwf|].
  destruct (invoke_write env c w Hc Hwf) as (w' & E & Hwf' & C & (S & _) & _).
  exists w'. auto.
Qed.

Lemma writes_return_in_every_reachable_state_witness :
  wf (mkWriter Writer_ (Some [0; 0; 0]) 0 3 [] [[[1]]] (Some slice)) /\
  exists w',
    invoke (mkEnv 4 true) (Sint32 (-1))
      (mkWriter Writer_ (Some [0; 0; 0]) 0 3 [] [[[1]]] (Some slice))
    = Return None w' /\ wf w' /\
    content w' = content (mkWriter Writer_ (Some [0; 0; 0]) 0 3 [] [[[1]]] (Some slice))
                 ++ encode (Sint32 (-1)) /\
    _stack w' = [[[1]]].
Proof.
  apply (writes_return_in_every_reachable_state (mkEnv 4 true) Writer_
           [Uint32 1; Fork] []).
  - vm_compute. reflexivity.
  - reflexivity.
Defined.

(** X12.  [fork] then [reset]: on a writer with written bytes in its
    active buffer, [fork()], any script of writes and [reset()] drop the
    inner writes and leave the writer in the scope it was in, at the same
    depth, with the same bytes and no active buffer. *)
Theorem fork_then_reset_restores_scope (env : Env) (w : Writer) (b : bytes)
    (ws : list call) :
  wf w -> buf w = Some b -> (0 < pos w)%nat ->
  forallb is_write ws = true ->
  exists w',
    run env (Fork :: ws ++ [Reset false]) w = Return [] w' /\
    wf w' /\ buf w' = None /\ content w' = content w /\
    _stack w' = _stack w /\ constructor_ w' = constructor_ w.
Proof.
  intros Hwf Eb Hp Hws.
  destruct (scope_reset env w b ws Hwf Eb Hp Hws) as (sl & E).
  eexists. split; [exact E|]. unfold wf, content. fields.
  rewrite app_nil_r, (content_snoc_prefix w b Eb).
  repeat split; reflexivity.
Qed.

Lemma fork_then_reset_restores_scope_witness :
  exists w',
    run (mkEnv 4 true) (Fork :: [Uint32 300; Bool_ true] ++ [Reset false])
      (mkWriter Writer_ (Some [8; 0; 0; 0]) 1 4 [] [] (Some slice))
    = Return [] w' /\
    wf w' /\ buf w' = None /\
    content w' = content (mkWriter Writer_ (Some [8; 0; 0; 0]) 1 4 [] [] (Some slice)) /\
    _stack w' = [] /\ constructor_ w' = Writer_.
Proof.
  apply (fork_then_reset_restores_scope (mkEnv 4 true)
           (mkWriter Writer_ (Some [8; 0; 0; 0]) 1 4 [] [] (Some slice))
           [8; 0; 0; 0] [Uint32 300; Bool_ true]).
  - unfold wf; simpl. repeat split; [lia | discriminate].
  - reflexivity.
  - simpl. lia.
  - reflexivity.
Defined.

(** X13.  An inner scope with nothing written: on a writer with written
    bytes in its active buffer, [fork()] then [finish()] hands back the
    empty sequence when the buffer had room left; when the buffer was
    exactly full the typed-array writer hands back [null] and the
    node-buffer writer throws. *)
Theorem empty_inner_scope_depends_on_room (env : Env) (w : Writer) (b : bytes) :
  wf w -> buf w = Some b -> (0 < pos w)%nat ->
  observe (run env [Fork; Finish false] w)
  = if (pos w <? len w)%nat then Ok [Some []]
    else match constructor_ w with
         | Writer_ => Ok [None]
         | BufferWriter_ => Err TypeError
         end.
Proof.
  intros Hwf Eb Hp.
  pose proof (wf_forked w b Hwf Eb) as Hwf2.
  pose proof (content_forked w b) as C2.
  rewrite run_cons, invoke_fork, (fork_spec w b Hwf Eb Hp). cbv beta iota.
  rewrite run_cons.
  destruct (Nat.ltb_spec (pos w) (len w)) as [Hc|Hc].
  - rewrite invoke_finish_live by (assumption || discriminate).
    rewrite C2. reflexivity.
  - rewrite invoke_finish. fields.
    destruct (constructor_ w);
      [rewrite finish_absent by (assumption || reflexivity)
      |rewrite finish_buffer_absent by (assumption || reflexivity)];
      reflexivity.
Qed.

Lemma empty_inner_scope_depends_on_room_witness :
  observe (run (mkEnv 1 true) [Fork; Finish false]
             (mkWriter Writer_ (Some [8]) 1 1 [] [] (Some slice)))
  = Ok [None].
Proof.
  apply (empty_inner_scope_depends_on_room (mkEnv 1 true)
           (mkWriter Writer_ (Some [8]) 1 1 [] [] (Some slice)) [8]).
  - unfold wf; simpl. repeat split; [lia | discriminate].
  - reflexivity.
  - simpl. lia.
Defined.

(** X14.  [finish] is [reset] plus the bytes: whenever [finish(c)]
    returns on a writer that satisfies the data invariant, it leaves the
    writer [reset(c)] leaves, and the bytes it hands back are those
    [finish] hands back with the other value of the flag. *)
Theorem finish_leaves_what_reset_leaves (env : Env) (c : bool)
    (w w' : Writer) (r : option (option bytes)) :
  wf w -> invoke env (Finish c) w = Return r w' ->
  invoke env (Reset c) w = Return None w' /\
  exists w'', invoke env (Finish (negb c)) w = Return r w''.
Proof.
  intros Hwf E. rewrite invoke_reset.
  destruct (buf w) as [b|] eqn:Eb.
  - assert (Hb : buf w <> None) by congruence.
    rewrite invoke_finish_live in E by assumption. injection E as <- <-.
    split; [reflexivity|]. eexists. apply invoke_finish_live; assumption.
  - rewrite invoke_finish in E. rewrite invoke_finish.
    destruct (constructor_ w).
    + rewrite finish_absent in E |- * by assumption.
      destruct (bufs w); [|discriminate]. injection E as <- <-.
      split; [reflexivity|]. eexists. reflexivity.
    + rewrite finish_buffer_absent in E |- * by assumption.
      destruct (bufs w); [discriminate|]. injection E as <- <-.
      split; [reflexivity|]. eexists. reflexivity.
Qed.

Lemma finish_leaves_what_reset_leaves_witness :
  invoke env0 (Reset false) (mkWriter Writer_ (Some [8; 0]) 1 2 [[7]] [[[6]]] (Some slice))
  = Return None (mkWriter Writer_ None 0 0 [[6]] [] (Some slice)) /\
  exists w'',
    invoke env0 (Finish (negb false))
      (mkWriter Writer_ (Some [8; 0]) 1 2 [[7]] [[[6]]] (Some slice))
    = Return (Some (Some [7; 8])) w''.
Proof.
  apply (finish_leaves_what_reset_leaves env0 false
           (mkWriter Writer_ (Some [8; 0]) 1 2 [[7]] [[[6]]] (Some slice))).
  - unfold wf; simpl. repeat split; [lia | discriminate].
  - reflexivity.
Defined.

(** X15.  Whatever the arguments of the writes, every byte [finish] hands
    back after a non-empty script of writes on a new writer is an octet,
    between 0 and 255. *)
Theorem finished_bytes_are_octets (env : Env) (k : species) (ws : list call) :
  forallb is_write ws = true -> ws <> [] ->
  exists bs,
    observe (run env (ws ++ [Finish false]) (new_ k)) = Ok [Some bs] /\
    Forall octet bs.
Proof.
  intros Hws Hne. exists (concat (map encode ws)).
  split; [apply run_writes_finish; assumption | apply encodes_octets].
Qed.

Lemma finished_bytes_are_octets_witness :
  exists bs,
    observe (run env0 ([Tag 1000 9; Fixed32 (-5); Bytes [300; -1]] ++ [Finish false])
               (new_ Writer_)) = Ok [Some bs] /\
    Forall octet bs.
Proof.
  apply (finished_bytes_are_octets env0 Writer_
           [Tag 1000 9; Fixed32 (-5); Bytes [300; -1]]).
  - reflexivity.
  - discriminate.
Defined.

(** X16.  A second [fork()] right after an inner [finish()] does nothing,
    because the writer has no active buffer then: for any three writes,
    [A; fork(); B; finish(); fork(); C; finish()] hands back the bytes of
    [B] and then the bytes of [A] followed by those of [C], on either
    class. *)
Theorem fork_after_inner_finish_is_noop (env : Env) (k : species) (A B C : call) :
  is_write A = true -> is_write B = true -> is_write C = true ->
  observe (run env ([A; Fork; B; Finish false] ++ [Fork; C; Finish false]) (new_ k))
  = Ok [Some (encode B); Some (encode A ++ encode C)].
Proof.
  intros HA HB HC.
  destruct (inner_finish_returns_inner_bytes env k A B HA HB)
    as (w & E & Hwf & Hb & _ & Hc & _ & _).
  destruct (invoke_write env C w HC Hwf) as (w1 & E1 & Hwf1 & C1 & _ & N1 & _).
  rewrite run_app, E, run_cons, invoke_fork, (fork_noop w (or_introl Hb)).
  cbv beta iota. rewrite run_cons, E1, run_cons.
  rewrite (invoke_finish_live env false w1 Hwf1 N1), C1.
  unfold content. rewrite Hb, app_nil_r, Hc. reflexivity.
Qed.

Lemma fork_after_inner_finish_is_noop_witness :
  observe (run env0 ([Uint32 1; Fork; Uint32 2; Finish false]
                     ++ [Fork; Uint32 3; Finish false]) (new_ Writer_))
  = Ok [Some (encode (Uint32 2)); Some (encode (Uint32 1) ++ encode (Uint32 3))].
Proof.
  apply (fork_after_inner_finish_is_noop env0 Writer_ (Uint32 1) (Uint32 2) (Uint32 3));
    reflexivity.
Defined.

(** ** The benchmark's [pad] *)

Lemma pad_step (str : list Ascii.ascii) (n : nat) (l : bool) :
  pad str n l =
  if (length str <? n)%nat
  then pad (if l then str ++ [Ascii.Space] else Ascii.Space :: str) n l
  else str.
Proof.
  rewrite (pad_equation_1 str n l).
  destruct (lt_dec (length str) n) as [H|H].
  - rewrite pad_clause_1_equation_1.
    destruct (Nat.ltb_spec (length str) n); [reflexivity|lia].
  - rewrite pad_clause_1_equation_2.
    destruct (Nat.ltb_spec (length str) n); [lia|reflexivity].
Qed.

(** X17.  [pad] fills with spaces up to [len] characters, after the
    string when [l] is set and before it otherwise; a string that is
    already that long is returned as it is, and the result has
    [max(str.length, len)] characters. *)
Theorem pad_fills_with_spaces (str : list Ascii.ascii) (n : nat) (l : bool) :
  pad str n l
  = (if l then str ++ replicate (n - length str) Ascii.Space
     else replicate (n - length str) Ascii.Space ++ str) /\
  length (pad str n l) = Nat.max (length str) n /\
  ((n <= length str)%nat -> pad str n l = str).
Proof.
  assert (H : pad str n l
              = if l then str ++ replicate (n - length str) Ascii.Space
                else replicate (n - length str) Ascii.Space ++ str).
  { remember (n - length str)%nat as d eqn:Ed. revert str Ed.
    induction d as [|d IH]; intros str Ed; rewrite pad_step.
    - destruct (Nat.ltb_spec (length str) n); [lia|].
      destruct l; simpl; rewrite ?app_nil_r; reflexivity.
    - destruct (Nat.ltb_spec (length str) n); [|lia].
      destruct l.
      + rewrite (IH (str ++ [Ascii.Space])) by (rewrite length_app; simpl; lia).
        rewrite <- app_assoc. reflexivity.
      + rewrite (IH (Ascii.Space :: str)) by (simpl; lia).
        change (replicate (S d) Ascii.Space)
          with (Ascii.Space :: replicate d Ascii.Space).
        rewrite replicate_cons_app, <- app_assoc. reflexivity. }
  split; [exact H|]. split.
  - rewrite H. destruct l; rewrite length_app, length_replicate; lia.
  - intros Hn. rewrite H. replace (n - length str)%nat with 0%nat by lia.
    destruct l; simpl; rewrite ?app_nil_r; reflexivity.
Qed.
